(** * Drishti ACF detector and facecrop driver: a shallow embedding

    The development follows two source files of the repository:

    - [src/lib/acf/acf/ACF.h], the declaration of the aggregated channel
      feature detector: the option structs and their [merge], [rgb2luv],
      [fuseChannels];
    - [src/app/facecrop/facecrop.cpp], the batch driver with its running
      mean of cropped faces: [FaceJittererMean], [computeMeanFace].

    Conventions.

    - A [float] or [double] of the source is an exact rational ([Qc], the
      canonical rationals, so that equal numbers are equal terms): every
      statement below is a statement under exact arithmetic.
    - A [cv::Mat] is its header (rows, cols) together with its rows of
      element values; its sizes are natural numbers, as OpenCV keeps
      them.  An [int] is an integer: no count or coordinate below comes
      near the bounds of its 32 bits.
    - An OpenCV precondition that fails, an access that C++ leaves
      undefined and a loop that never ends are the three [fault]s of a
      [result].
    - The bodies of the [merge] functions and of [bbNms], [Field<T>] and
      [MatP] are in files that the two above only include or announce;
      what is written for them here follows the specification and says
      so.  Of [bbNms] only the suppression by overlap (the modes [max]
      and [maxg]) is described there closely enough to be written
      down. *)

From Stdlib Require Import ZArith QArith Qcanon Lia Lqa List Sorted Ascii.
From stdpp Require Import base list strings pretty.

(** ** Outcomes of a call *)

Inductive fault : Type :=
| CvError              (* an OpenCV assertion fails: cv::Exception *)
| UndefinedBehaviour   (* out-of-range access to a std::vector *)
| Diverges.            (* the loop does not terminate *)

Inductive result (A : Type) : Type :=
| Done (a : A)
| Fault (f : fault).
Arguments Done {A} a.
Arguments Fault {A} f.

(** ** cv::Mat, cv::Rect and MatP *)

Module Cv.
Section Mat.
Context {A : Type}.

(** The header fields [rows] and [cols] and the element rows. *)
Record Mat : Type := mkMat { rows : nat; cols : nat; data : list (list A) }.

(** The header describes the data: what every [cv::Mat] satisfies. *)
Definition wf (m : Mat) : Prop :=
  length (data m) = rows m ∧ Forall (λ r, length r = cols m) (data m).

Definition hasSize (h w : nat) (m : Mat) : Prop :=
  rows m = h ∧ cols m = w ∧ wf m.

(** [Mat::empty()]: no element. *)
Definition empty (m : Mat) : bool := Nat.eqb (rows m * cols m) 0.

(** The default-constructed matrix. *)
Definition nil : Mat := mkMat 0 0 [].

(** [cv::Rect], with its [int] fields. *)
Record Rect : Type := mkRect { x : Z; y : Z; width : Z; height : Z }.

(** [m(roi)]: the view of [m] on [roi]; OpenCV asserts that the rectangle
    lies inside the matrix. *)
Definition submat (m : Mat) (roi : Rect) : result Mat :=
  if decide (0 ≤ x roi ∧ 0 ≤ width roi ∧ x roi + width roi ≤ Z.of_nat (cols m)
             ∧ 0 ≤ y roi ∧ 0 ≤ height roi ∧ y roi + height roi ≤ Z.of_nat (rows m))%Z
  then
    Done (mkMat (Z.to_nat (height roi)) (Z.to_nat (width roi))
            ((λ r, take (Z.to_nat (width roi)) (drop (Z.to_nat (x roi)) r))
               <$> take (Z.to_nat (height roi)) (drop (Z.to_nat (y roi)) (data m))))
  else Fault CvError.

(** [cv::vconcat(src, dst)]: the matrices one below the other; an empty
    [src] releases [dst]; OpenCV asserts that all have the columns of the
    first. *)
Definition vconcat (src : list Mat) : result Mat :=
  match src with
  | [] => Done nil
  | m0 :: _ =>
      if decide (Forall (λ m, cols m = cols m0) src) then
        Done (mkMat (sum_list (rows <$> src)) (cols m0) (concat (data <$> src)))
      else Fault CvError
  end.
End Mat.
Arguments Mat A : clear implicits.
End Cv.

(** Modelled from the spec: [MatP] of acf/MatP.h, a header that ACF.h
    includes: the multi-channel tensor, an ordered sequence of 2D planes,
    with the base matrix that the planes view.  [begin()]/[end()] iterate
    over the planes; [base()] and [get()] give access to the two members,
    as [fuseChannels] uses them. *)
Record MatP (A : Type) : Type := mkMatP { base : Cv.Mat A; get : list (Cv.Mat A) }.
Arguments mkMatP {A} base get.
Arguments base {A} m.
Arguments get {A} m.

(** ** fuseChannels (ACF.h) *)

Section FuseChannels.
Context {A : Type}.

(** The loop
    [for(int j = 0; roi.y < base.rows; j++, roi.y += roi.height)
        stack[j] = base(roi);]
    with the vector [stack] passed along. *)
Fixpoint fuseLoop (fuel : nat) (b : Cv.Mat A) (roi : Cv.Rect) (j : nat)
    (stack : list (Cv.Mat A)) : result (list (Cv.Mat A)) :=
  if decide (Cv.y roi < Z.of_nat (Cv.rows b))%Z then
    match fuel with
    | 0 => Fault Diverges
    | S fuel' =>
        match Cv.submat b roi with
        | Fault f => Fault f
        | Done view =>
            if decide (j < length stack) then
              fuseLoop fuel' b
                (Cv.mkRect (Cv.x roi) (Cv.y roi + Cv.height roi)%Z
                   (Cv.width roi) (Cv.height roi))
                (S j) (<[j := view]> stack)
            else Fault UndefinedBehaviour
        end
    end
  else Done stack.

(** [fuseChannels(begin, end, Ip)]: the range is the list [range]; the
    result is the new value of [Ip].  The loop advances [roi.y] by
    [roi.height], so [base.rows] steps of fuel are enough whenever it
    advances at all. *)
Definition fuseChannels (range : list (MatP A)) : result (MatP A) :=
  let stack := concat (get <$> range) in
  match Cv.vconcat stack with
  | Fault f => Fault f
  | Done b =>
      match stack with
      | [] => Fault UndefinedBehaviour          (* stack.front() *)
      | front :: _ =>
          let roi := Cv.mkRect 0 0 (Z.of_nat (Cv.cols front))
                       (Z.of_nat (Cv.rows front)) in
          match fuseLoop (Cv.rows b) b roi 0 stack with
          | Fault f => Fault f
          | Done stack' => Done (mkMatP b stack')
          end
      end
  end.
End FuseChannels.

(** ** Exact numbers *)

Open Scope Qc_scope.

(** The decimal literal [n / d]. *)
Definition dec (n : Z) (d : positive) : Qc := Q2Qc (n # d).

(** [static_cast<float>(n)] and [float(n)] of an [int]. *)
Definition Qc_of_Z (n : Z) : Qc := Q2Qc (inject_Z n).

(** ** rgb2luv (ACF.h) *)

Record Vec3f : Type := mkVec3f { v0 : Qc; v1 : Qc; v2 : Qc }.

(** [cv::Matx33f], its nine entries in row-major order as the constructor
    takes them. *)
Record Matx33f : Type := mkMatx33f {
  m00 : Qc; m01 : Qc; m02 : Qc;
  m10 : Qc; m11 : Qc; m12 : Qc;
  m20 : Qc; m21 : Qc; m22 : Qc }.

(** [Matx::t()] *)
Definition Matx33f_t (m : Matx33f) : Matx33f :=
  mkMatx33f (m00 m) (m10 m) (m20 m)
            (m01 m) (m11 m) (m21 m)
            (m02 m) (m12 m) (m22 m).

(** [Matx33f * Vec3f] *)
Definition Matx33f_mul (m : Matx33f) (v : Vec3f) : Vec3f :=
  mkVec3f (m00 m * v0 v + m01 m * v1 v + m02 m * v2 v)
          (m10 m * v0 v + m11 m * v1 v + m12 m * v2 v)
          (m20 m * v0 v + m21 m * v1 v + m22 m * v2 v).

(** [Vec3f::dot] *)
Definition Vec3f_dot (a b : Vec3f) : Qc :=
  v0 a * v0 b + v1 a * v1 b + v2 a * v2 b.

Module Luv.
Definition RGBtoXYZ : Matx33f :=
  Matx33f_t
    (mkMatx33f (dec 430574 1000000) (dec 222015 1000000) (dec 20183 1000000)
               (dec 341550 1000000) (dec 706655 1000000) (dec 129553 1000000)
               (dec 178325 1000000) (dec 71330 1000000) (dec 939180 1000000)).

Definition y0 : Qc := dec 885645167 100000000000.
Definition a : Qc := dec 903296296296 1000000000.
Definition un : Qc := dec 197833 1000000.
Definition vn : Qc := dec 468331 1000000.
Definition maxi : Qc := dec 37037037 10000000000.
Definition minu : Qc := maxi * - dec 88 1.
Definition minv : Qc := maxi * - dec 134 1.
Definition k : Vec3f := mkVec3f (dec 1 1) (dec 15 1) (dec 3 1).

(** The literal [1e-35]. *)
Definition eps : Qc := dec 1 (10 ^ 35).

Definition xyz (rgb : Vec3f) : Vec3f := Matx33f_mul RGBtoXYZ rgb.

(** [c = xyz.dot(k) + 1e-35] and [z = 1.0/c]. *)
Definition c (rgb : Vec3f) : Qc := Vec3f_dot (xyz rgb) k + eps.
Definition z (rgb : Vec3f) : Qc := dec 1 1 / c rgb.
End Luv.

(** [rgb2luv]; [pow] stands for [std::pow] of the C++ library. *)
Definition rgb2luv (pow : Qc → Qc → Qc) (rgb : Vec3f) : Vec3f :=
  let xyz := Luv.xyz rgb in
  let z := Luv.z rgb in
  let l := (match Luv.y0 ?= v1 xyz with
            | Lt => dec 116 1 * pow (v1 xyz) (dec 3333333333 10000000000) - dec 16 1
            | _ => v1 xyz * Luv.a
            end) * Luv.maxi in
  mkVec3f l
          (l * ((dec 52 1 * v0 xyz * z) - (dec 13 1 * Luv.un)) - Luv.minu)
          (l * ((dec 117 1 * v1 xyz * z) - (dec 13 1 * Luv.vn)) - Luv.minv).

(** ** The running mean of facecrop.cpp *)

(** [cv::Mat3f]: a row holds the channel values of its pixels in memory
    order. *)
Abbreviation Mat3f := (Cv.Mat Qc).

Module MatOp.
Definition sameSize (m1 m2 : Mat3f) : Prop :=
  Cv.rows m1 = Cv.rows m2 ∧ Cv.cols m1 = Cv.cols m2.

(** Elementwise operation on the data of two matrices of one size. *)
Definition zipData (f : Qc → Qc → Qc) (m1 m2 : Mat3f) : Mat3f :=
  Cv.mkMat (Cv.rows m1) (Cv.cols m1) (zip_with (zip_with f) (Cv.data m1) (Cv.data m2)).

(** [m1 + m2] and [m1 - m2]: OpenCV raises an error unless the sizes
    agree. *)
Definition add (m1 m2 : Mat3f) : result Mat3f :=
  if decide (sameSize m1 m2) then Done (zipData Qcplus m1 m2) else Fault CvError.

Definition sub (m1 m2 : Mat3f) : result Mat3f :=
  if decide (sameSize m1 m2) then Done (zipData Qcminus m1 m2) else Fault CvError.

(** [s * m] and [m * s] *)
Definition scale (s : Qc) (m : Mat3f) : Mat3f :=
  Cv.mkMat (Cv.rows m) (Cv.cols m) (fmap (M:=list) (Qcmult s) <$> Cv.data m).
End MatOp.

(** The two members that the mean uses. *)
Record FaceJittererMean : Type := mkFaceJittererMean { mu : Mat3f; count : Z }.

(** [cumulativeMovingAverage(mu, x, n)]: the new value of [mu]. *)
Definition cumulativeMovingAverage (mu x : Mat3f) (n : Z) : result Mat3f :=
  if Cv.empty mu then Done x
  else
    match MatOp.sub x mu with
    | Fault f => Fault f
    | Done d => MatOp.add mu (MatOp.scale (dec 1 1 / Qc_of_Z n) d)
    end.

(** [updateMean(const cv::Mat3f &f)] *)
Definition updateMean (f : Mat3f) (j : FaceJittererMean) : result FaceJittererMean :=
  let n := (count j + 1)%Z in
  match cumulativeMovingAverage (mu j) f n with
  | Fault e => Fault e
  | Done m => Done (mkFaceJittererMean m n)
  end.

(** The calls [updateMean(f)] for the samples [fs], one after the other,
    as the loop of [updateMean(const std::vector<cv::Mat> &)] and the
    successive images of a thread issue them. *)
Fixpoint updateMeans (fs : list Mat3f) (j : FaceJittererMean) : result FaceJittererMean :=
  match fs with
  | [] => Done j
  | f :: fs' =>
      match updateMean f j with
      | Fault e => Fault e
      | Done j' => updateMeans fs' j'
      end
  end.

(** A jitterer as the resource manager creates it. *)
Definition newFaceJittererMean : FaceJittererMean := mkFaceJittererMean Cv.nil 0.

(** The second loop of [computeMeanFace]; [total] is the sum of the
    counts. *)
Fixpoint meanLoop (total : Z) (js : list FaceJittererMean) (acc : Mat3f) : result Mat3f :=
  match js with
  | [] => Done acc
  | j :: js' =>
      let term := MatOp.scale (Qc_of_Z (count j) / Qc_of_Z total) (mu j) in
      if Cv.empty acc then meanLoop total js' term
      else
        match MatOp.add acc term with
        | Fault e => Fault e
        | Done acc' => meanLoop total js' acc'
        end
  end.

(** [computeMeanFace(manager)]; [manager] lists the jitterers of
    [manager.getMap()] in the order of the map. *)
Definition computeMeanFace (manager : list FaceJittererMean) : result Mat3f :=
  let total := foldl (λ n j, (n + count j)%Z) 0%Z manager in
  meanLoop total manager Cv.nil.

(** The arithmetic mean of matrices of one size: the sum of the samples,
    entry by entry, over their number. *)
Definition zeros (h w : nat) : Mat3f := Cv.mkMat h w (replicate h (replicate w 0)).

Definition matSum (h w : nat) (xs : list Mat3f) : Mat3f :=
  foldr (MatOp.zipData Qcplus) (zeros h w) xs.

Definition arithmeticMean (xs : list Mat3f) : Mat3f :=
  match xs with
  | [] => Cv.nil
  | x :: _ =>
      MatOp.scale (dec 1 1 / Qc_of_Z (Z.of_nat (length xs)))
        (matSum (Cv.rows x) (Cv.cols x) xs)
  end.

Close Scope Qc_scope.

(** ** The option structs (ACF.h) *)

(** [cv::Size] *)
Record Size : Type := mkSize { Size_width : Z; Size_height : Z }.

(** Modelled from the spec: [Field<T>] of acf/ACFField.h, a header that
    ACF.h includes: an optional field, either explicitly set to a value
    or unset; it carries the name that [set(name)] gives it. *)
Record Field (T : Type) : Type := mkField { fname : string; fvalue : option T }.
Arguments mkField {T} fname fvalue.
Arguments fname {T} f.
Arguments fvalue {T} f.

(** Modelled from the spec: the default-constructed [Field<T>], an unset
    field without a name. *)
Definition Field_default {T : Type} : Field T := mkField "" None.

(** Modelled from the spec: [f.set(name)], as the constructor of [Chns]
    calls it, names the field. *)
Definition Field_set {T : Type} (n : string) (f : Field T) : Field T :=
  mkField n (fvalue f).

(** Modelled from the spec: whether the field has an explicit value. *)
Definition isSet {T : Type} (f : Field T) : bool :=
  match fvalue f with Some _ => true | None => false end.

(** Modelled from the spec: the merge of a field that holds a plain
    value: a field that the override sets replaces the field of the base,
    an unset one inherits it. *)
Definition mergeLeaf {T : Type} (base override : Field T) : Field T :=
  match fvalue override with
  | Some _ => override
  | None => base
  end.

(** Modelled from the spec: the merge of a field that holds a nested
    group: the rule of [mergeLeaf], applied recursively inside the group
    when both sides set it.  [mode] (strict or permissive about fields
    that the base does not know) is handed down; these structs have a
    fixed set of fields, so that no override brings an unknown one. *)
Definition mergeGroup {T : Type} (merge : T → T → Z → T)
    (base override : Field T) (mode : Z) : Field T :=
  match fvalue override with
  | None => base
  | Some o =>
      match fvalue base with
      | None => override
      | Some b => mkField (fname override) (Some (merge b o mode))
      end
  end.

(** The values that the fields hold. *)
Inductive Value : Type :=
| VInt (n : Z)
| VDouble (d : Qc)
| VString (s : string)
| VDoubles (ds : list Qc)
| VInts (ns : list Z)
| VSize (sz : Size).

(** A field as seen from outside: whether it is set, and the value set
    at a path of field names below it. *)
Record View : Type := mkView { vset : bool; vget : list string → option Value }.

Definition leafView {T : Type} (inj : T → Value) (f : Field T) : View :=
  mkView (isSet f)
         (λ path, match path with [] => inj <$> fvalue f | _ :: _ => None end).

Definition groupView {T : Type} (read : T → list string → option Value)
    (f : Field T) : View :=
  mkView (isSet f)
         (λ path, match fvalue f with Some g => read g path | None => None end).

Fixpoint findField (n : string) (fs : list (string * View)) : option View :=
  match fs with
  | [] => None
  | (k, v) :: fs' => if String.eqb n k then Some v else findField n fs'
  end.

Definition readIn (fs : list (string * View)) (path : list string) : option Value :=
  match path with
  | [] => None
  | n :: path' =>
      match findField n fs with
      | Some v => vget v path'
      | None => None
      end
  end.

Module Options.
Module Nms.
(** [struct Options::Nms] *)
Record t : Type := mk {
  type : Field string;
  thr : Field Qc;
  maxn : Field Qc;
  radii : Field (list Qc);
  overlap : Field Qc;
  ovrDnm : Field string;
  separate : Field Z }.

(** The default-constructed struct: no field is set. *)
Definition make : t :=
  mk Field_default
     Field_default
     Field_default
     Field_default
     Field_default
     Field_default
     Field_default.

(** Modelled from the spec: [Options::Nms::merge], declared in ACF.h and defined
    in a file that is not part of the sources.  Field by field, what
    [override] sets replaces what [base] has. *)
Definition merge (base override : t) (mode : Z) : t :=
  mk (mergeLeaf (type base) (type override))
     (mergeLeaf (thr base) (thr override))
     (mergeLeaf (maxn base) (maxn override))
     (mergeLeaf (radii base) (radii override))
     (mergeLeaf (overlap base) (overlap override))
     (mergeLeaf (ovrDnm base) (ovrDnm override))
     (mergeLeaf (separate base) (separate override)).

(** The fields under their names in the declaration. *)
Definition fields (s : t) : list (string * View) :=
  [ ("type", leafView VString (type s));
    ("thr", leafView VDouble (thr s));
    ("maxn", leafView VDouble (maxn s));
    ("radii", leafView VDoubles (radii s));
    ("overlap", leafView VDouble (overlap s));
    ("ovrDnm", leafView VString (ovrDnm s));
    ("separate", leafView VInt (separate s)) ].

(** The value set at a path of field names, and whether any field is set. *)
Definition read (s : t) (path : list string) : option Value := readIn (fields s) path.
Definition anySet (s : t) : bool := existsb (λ f, vset f.2) (fields s).
End Nms.

Module Pyramid.
Module Chns.
Module Color.
(** [struct Options::Pyramid::Chns::Color] *)
Record t : Type := mk {
  enabled : Field Z;
  smooth : Field Qc;
  colorSpace : Field string }.

(** The default-constructed struct: no field is set. *)
Definition make : t :=
  mk Field_default
     Field_default
     Field_default.

(** Modelled from the spec: [Options::Pyramid::Chns::Color::merge], declared in ACF.h and defined
    in a file that is not part of the sources.  Field by field, what
    [override] sets replaces what [base] has. *)
Definition merge (base override : t) (mode : Z) : t :=
  mk (mergeLeaf (enabled base) (enabled override))
     (mergeLeaf (smooth base) (smooth override))
     (mergeLeaf (colorSpace base) (colorSpace override)).

(** The fields under their names in the declaration. *)
Definition fields (s : t) : list (string * View) :=
  [ ("enabled", leafView VInt (enabled s));
    ("smooth", leafView VDouble (smooth s));
    ("colorSpace", leafView VString (colorSpace s)) ].

(** The value set at a path of field names, and whether any field is set. *)
Definition read (s : t) (path : list string) : option Value := readIn (fields s) path.
Definition anySet (s : t) : bool := existsb (λ f, vset f.2) (fields s).
End Color.

Module GradMag.
(** [struct Options::Pyramid::Chns::GradMag] *)
Record t : Type := mk {
  enabled : Field Z;
  colorChn : Field Z;
  normRad : Field Z;
  normConst : Field Qc;
  full : Field Z }.

(** The default-constructed struct: no field is set. *)
Definition make : t :=
  mk Field_default
     Field_default
     Field_default
     Field_default
     Field_default.

(** Modelled from the spec: [Options::Pyramid::Chns::GradMag::merge], declared in ACF.h and defined
    in a file that is not part of the sources.  Field by field, what
    [override] sets replaces what [base] has. *)
Definition merge (base override : t) (mode : Z) : t :=
  mk (mergeLeaf (enabled base) (enabled override))
     (mergeLeaf (colorChn base) (colorChn override))
     (mergeLeaf (normRad base) (normRad override))
     (mergeLeaf (normConst base) (normConst override))
     (mergeLeaf (full base) (full override)).

(** The fields under their names in the declaration. *)
Definition fields (s : t) : list (string * View) :=
  [ ("enabled", leafView VInt (enabled s));
    ("colorChn", leafView VInt (colorChn s));
    ("normRad", leafView VInt (normRad s));
    ("normConst", leafView VDouble (normConst s));
    ("full", leafView VInt (full s)) ].

(** The value set at a path of field names, and whether any field is set. *)
Definition read (s : t) (path : list string) : option Value := readIn (fields s) path.
Definition anySet (s : t) : bool := existsb (λ f, vset f.2) (fields s).
End GradMag.

Module GradHist.
(** [struct Options::Pyramid::Chns::GradHist] *)
Record t : Type := mk {
  enabled : Field Z;
  binSize : Field Z;
  nOrients : Field Z;
  softBin : Field Z;
  useHog : Field Z;
  clipHog : Field Qc }.

(** The default-constructed struct: no field is set. *)
Definition make : t :=
  mk Field_default
     Field_default
     Field_default
     Field_default
     Field_default
     Field_default.

(** Modelled from the spec: [Options::Pyramid::Chns::GradHist::merge], declared in ACF.h and defined
    in a file that is not part of the sources.  Field by field, what
    [override] sets replaces what [base] has. *)
Definition merge (base override : t) (mode : Z) : t :=
  mk (mergeLeaf (enabled base) (enabled override))
     (mergeLeaf (binSize base) (binSize override))
     (mergeLeaf (nOrients base) (nOrients override))
     (mergeLeaf (softBin base) (softBin override))
     (mergeLeaf (useHog base) (useHog override))
     (mergeLeaf (clipHog base) (clipHog override)).

(** The fields under their names in the declaration. *)
Definition fields (s : t) : list (string * View) :=
  [ ("enabled", leafView VInt (enabled s));
    ("binSize", leafView VInt (binSize s));
    ("nOrients", leafView VInt (nOrients s));
    ("softBin", leafView VInt (softBin s));
    ("useHog", leafView VInt (useHog s));
    ("clipHog", leafView VDouble (clipHog s)) ].

(** The value set at a path of field names, and whether any field is set. *)
Definition read (s : t) (path : list string) : option Value := readIn (fields s) path.
Definition anySet (s : t) : bool := existsb (λ f, vset f.2) (fields s).
End GradHist.

Module Custom.
(** [struct Options::Pyramid::Chns::Custom] *)
Record t : Type := mk { }.

(** The default-constructed struct: no field is set. *)
Definition make : t := mk.

(** Modelled from the spec: [Options::Pyramid::Chns::Custom::merge], declared in ACF.h and defined
    in a file that is not part of the sources.  Field by field, what
    [override] sets replaces what [base] has. *)
Definition merge (base override : t) (mode : Z) : t := mk.

(** The fields under their names in the declaration. *)
Definition fields (s : t) : list (string * View) := [].

(** The value set at a path of field names, and whether any field is set. *)
Definition read (s : t) (path : list string) : option Value := readIn (fields s) path.
Definition anySet (s : t) : bool := existsb (λ f, vset f.2) (fields s).
End Custom.

(** [struct Options::Pyramid::Chns] *)
Record t : Type := mk {
  shrink : Field Z;
  pColor : Field Color.t;
  pGradMag : Field GradMag.t;
  pGradHist : Field GradHist.t;
  pCustom : Field Custom.t;
  complete : Field Z }.

(** The constructor names the fields. *)
Definition make : t :=
  mk (Field_set "shrink" Field_default)
     (Field_set "pColor" Field_default)
     (Field_set "pGradMag" Field_default)
     (Field_set "pGradHist" Field_default)
     (Field_set "pCustom" Field_default)
     (Field_set "complete" Field_default).

(** Modelled from the spec: [Options::Pyramid::Chns::merge], declared in ACF.h and defined
    in a file that is not part of the sources.  Field by field, what
    [override] sets replaces what [base] has. *)
Definition merge (base override : t) (mode : Z) : t :=
  mk (mergeLeaf (shrink base) (shrink override))
     (mergeGroup Color.merge (pColor base) (pColor override) mode)
     (mergeGroup GradMag.merge (pGradMag base) (pGradMag override) mode)
     (mergeGroup GradHist.merge (pGradHist base) (pGradHist override) mode)
     (mergeGroup Custom.merge (pCustom base) (pCustom override) mode)
     (mergeLeaf (complete base) (complete override)).

(** The fields under their names in the declaration. *)
Definition fields (s : t) : list (string * View) :=
  [ ("shrink", leafView VInt (shrink s));
    ("pColor", groupView Color.read (pColor s));
    ("pGradMag", groupView GradMag.read (pGradMag s));
    ("pGradHist", groupView GradHist.read (pGradHist s));
    ("pCustom", groupView Custom.read (pCustom s));
    ("complete", leafView VInt (complete s)) ].

(** The value set at a path of field names, and whether any field is set. *)
Definition read (s : t) (path : list string) : option Value := readIn (fields s) path.
Definition anySet (s : t) : bool := existsb (λ f, vset f.2) (fields s).
End Chns.

(** [struct Options::Pyramid] *)
Record t : Type := mk {
  pChns : Field Chns.t;
  nPerOct : Field Z;
  nOctUp : Field Z;
  nApprox : Field Z;
  lambdas : Field (list Qc);
  pad : Field Size;
  minDs : Field Size;
  smooth : Field Qc;
  concat : Field Z;
  complete : Field Z }.

(** The default-constructed struct: no field is set. *)
Definition make : t :=
  mk Field_default
     Field_default
     Field_default
     Field_default
     Field_default
     Field_default
     Field_default
     Field_default
     Field_default
     Field_default.

(** Modelled from the spec: [Options::Pyramid::merge], declared in ACF.h and defined
    in a file that is not part of the sources.  Field by field, what
    [override] sets replaces what [base] has. *)
Definition merge (base override : t) (mode : Z) : t :=
  mk (mergeGroup Chns.merge (pChns base) (pChns override) mode)
     (mergeLeaf (nPerOct base) (nPerOct override))
     (mergeLeaf (nOctUp base) (nOctUp override))
     (mergeLeaf (nApprox base) (nApprox override))
     (mergeLeaf (lambdas base) (lambdas override))
     (mergeLeaf (pad base) (pad override))
     (mergeLeaf (minDs base) (minDs override))
     (mergeLeaf (smooth base) (smooth override))
     (mergeLeaf (concat base) (concat override))
     (mergeLeaf (complete base) (complete override)).

(** The fields under their names in the declaration. *)
Definition fields (s : t) : list (string * View) :=
  [ ("pChns", groupView Chns.read (pChns s));
    ("nPerOct", leafView VInt (nPerOct s));
    ("nOctUp", leafView VInt (nOctUp s));
    ("nApprox", leafView VInt (nApprox s));
    ("lambdas", leafView VDoubles (lambdas s));
    ("pad", leafView VSize (pad s));
    ("minDs", leafView VSize (minDs s));
    ("smooth", leafView VDouble (smooth s));
    ("concat", leafView VInt (concat s));
    ("complete", leafView VInt (complete s)) ].

(** The value set at a path of field names, and whether any field is set. *)
Definition read (s : t) (path : list string) : option Value := readIn (fields s) path.
Definition anySet (s : t) : bool := existsb (λ f, vset f.2) (fields s).
End Pyramid.

Module Boost.
Module Tree.
(** [struct Options::Boost::Tree] *)
Record t : Type := mk {
  nBins : Field Z;
  maxDepth : Field Z;
  minWeight : Field Qc;
  fracFtrs : Field Qc;
  nThreads : Field Z }.

(** The default-constructed struct: no field is set. *)
Definition make : t :=
  mk Field_default
     Field_default
     Field_default
     Field_default
     Field_default.

(** Modelled from the spec: [Options::Boost::Tree::merge], declared in ACF.h and defined
    in a file that is not part of the sources.  Field by field, what
    [override] sets replaces what [base] has. *)
Definition merge (base override : t) (mode : Z) : t :=
  mk (mergeLeaf (nBins base) (nBins override))
     (mergeLeaf (maxDepth base) (maxDepth override))
     (mergeLeaf (minWeight base) (minWeight override))
     (mergeLeaf (fracFtrs base) (fracFtrs override))
     (mergeLeaf (nThreads base) (nThreads override)).

(** The fields under their names in the declaration. *)
Definition fields (s : t) : list (string * View) :=
  [ ("nBins", leafView VInt (nBins s));
    ("maxDepth", leafView VInt (maxDepth s));
    ("minWeight", leafView VDouble (minWeight s));
    ("fracFtrs", leafView VDouble (fracFtrs s));
    ("nThreads", leafView VInt (nThreads s)) ].

(** The value set at a path of field names, and whether any field is set. *)
Definition read (s : t) (path : list string) : option Value := readIn (fields s) path.
Definition anySet (s : t) : bool := existsb (λ f, vset f.2) (fields s).
End Tree.

(** [struct Options::Boost] *)
Record t : Type := mk {
  pTree : Field Tree.t;
  nWeak : Field Z;
  discrete : Field Z;
  verbose : Field Z }.

(** The default-constructed struct: no field is set. *)
Definition make : t :=
  mk Field_default
     Field_default
     Field_default
     Field_default.

(** Modelled from the spec: [Options::Boost::merge], declared in ACF.h and defined
    in a file that is not part of the sources.  Field by field, what
    [override] sets replaces what [base] has. *)
Definition merge (base override : t) (mode : Z) : t :=
  mk (mergeGroup Tree.merge (pTree base) (pTree override) mode)
     (mergeLeaf (nWeak base) (nWeak override))
     (mergeLeaf (discrete base) (discrete override))
     (mergeLeaf (verbose base) (verbose override)).

(** The fields under their names in the declaration. *)
Definition fields (s : t) : list (string * View) :=
  [ ("pTree", groupView Tree.read (pTree s));
    ("nWeak", leafView VInt (nWeak s));
    ("discrete", leafView VInt (discrete s));
    ("verbose", leafView VInt (verbose s)) ].

(** The value set at a path of field names, and whether any field is set. *)
Definition read (s : t) (path : list string) : option Value := readIn (fields s) path.
Definition anySet (s : t) : bool := existsb (λ f, vset f.2) (fields s).
End Boost.

Module Jitter.
(** [struct Options::Jitter] *)
Record t : Type := mk {
  flip : Field Z }.

(** The default-constructed struct: no field is set. *)
Definition make : t :=
  mk Field_default.

(** Modelled from the spec: [Options::Jitter::merge], declared in ACF.h and defined
    in a file that is not part of the sources.  Field by field, what
    [override] sets replaces what [base] has. *)
Definition merge (base override : t) (mode : Z) : t :=
  mk (mergeLeaf (flip base) (flip override)).

(** The fields under their names in the declaration. *)
Definition fields (s : t) : list (string * View) :=
  [ ("flip", leafView VInt (flip s)) ].

(** The value set at a path of field names, and whether any field is set. *)
Definition read (s : t) (path : list string) : option Value := readIn (fields s) path.
Definition anySet (s : t) : bool := existsb (λ f, vset f.2) (fields s).
End Jitter.

(** [struct Options] *)
Record t : Type := mk {
  pPyramid : Field Pyramid.t;
  modelDs : Field Size;
  modelDsPad : Field Size;
  pNms : Field Nms.t;
  stride : Field Z;
  cascThr : Field Qc;
  cascCal : Field Qc;
  nWeak : Field (list Z);
  pBoost : Field Boost.t;
  seed : Field Qc;
  name : Field string;
  posGtDir : Field string;
  posImgDir : Field string;
  negImgDir : Field string;
  posWinDir : Field string;
  negWinDir : Field string;
  nPos : Field Z;
  nNeg : Field Z;
  nPerNeg : Field Z;
  nAccNeg : Field Z;
  pJitter : Field Jitter.t;
  winsSave : Field Z }.

(** The default-constructed struct: no field is set. *)
Definition make : t :=
  mk Field_default
     Field_default
     Field_default
     Field_default
     Field_default
     Field_default
     Field_default
     Field_default
     Field_default
     Field_default
     Field_default
     Field_default
     Field_default
     Field_default
     Field_default
     Field_default
     Field_default
     Field_default
     Field_default
     Field_default
     Field_default
     Field_default.

(** Modelled from the spec: [Options::merge], declared in ACF.h and defined
    in a file that is not part of the sources.  Field by field, what
    [override] sets replaces what [base] has. *)
Definition merge (base override : t) (mode : Z) : t :=
  mk (mergeGroup Pyramid.merge (pPyramid base) (pPyramid override) mode)
     (mergeLeaf (modelDs base) (modelDs override))
     (mergeLeaf (modelDsPad base) (modelDsPad override))
     (mergeGroup Nms.merge (pNms base) (pNms override) mode)
     (mergeLeaf (stride base) (stride override))
     (mergeLeaf (cascThr base) (cascThr override))
     (mergeLeaf (cascCal base) (cascCal override))
     (mergeLeaf (nWeak base) (nWeak override))
     (mergeGroup Boost.merge (pBoost base) (pBoost override) mode)
     (mergeLeaf (seed base) (seed override))
     (mergeLeaf (name base) (name override))
     (mergeLeaf (posGtDir base) (posGtDir override))
     (mergeLeaf (posImgDir base) (posImgDir override))
     (mergeLeaf (negImgDir base) (negImgDir override))
     (mergeLeaf (posWinDir base) (posWinDir override))
     (mergeLeaf (negWinDir base) (negWinDir override))
     (mergeLeaf (nPos base) (nPos override))
     (mergeLeaf (nNeg base) (nNeg override))
     (mergeLeaf (nPerNeg base) (nPerNeg override))
     (mergeLeaf (nAccNeg base) (nAccNeg override))
     (mergeGroup Jitter.merge (pJitter base) (pJitter override) mode)
     (mergeLeaf (winsSave base) (winsSave override)).

(** The fields under their names in the declaration. *)
Definition fields (s : t) : list (string * View) :=
  [ ("pPyramid", groupView Pyramid.read (pPyramid s));
    ("modelDs", leafView VSize (modelDs s));
    ("modelDsPad", leafView VSize (modelDsPad s));
    ("pNms", groupView Nms.read (pNms s));
    ("stride", leafView VInt (stride s));
    ("cascThr", leafView VDouble (cascThr s));
    ("cascCal", leafView VDouble (cascCal s));
    ("nWeak", leafView VInts (nWeak s));
    ("pBoost", groupView Boost.read (pBoost s));
    ("seed", leafView VDouble (seed s));
    ("name", leafView VString (name s));
    ("posGtDir", leafView VString (posGtDir s));
    ("posImgDir", leafView VString (posImgDir s));
    ("negImgDir", leafView VString (negImgDir s));
    ("posWinDir", leafView VString (posWinDir s));
    ("negWinDir", leafView VString (negWinDir s));
    ("nPos", leafView VInt (nPos s));
    ("nNeg", leafView VInt (nNeg s));
    ("nPerNeg", leafView VInt (nPerNeg s));
    ("nAccNeg", leafView VInt (nAccNeg s));
    ("pJitter", groupView Jitter.read (pJitter s));
    ("winsSave", leafView VInt (winsSave s)) ].

(** The value set at a path of field names, and whether any field is set. *)
Definition read (s : t) (path : list string) : option Value := readIn (fields s) path.
Definition anySet (s : t) : bool := existsb (λ f, vset f.2) (fields s).
End Options.


(** ** Non-maximum suppression (ACF.h declares [bbNms]) *)

(** [struct Detector::Detection] *)
Record Detection : Type := mkDetection { roi : Cv.Rect; score : Qc }.

Module BbNms.
Local Open Scope Qc_scope.

Definition area (r : Cv.Rect) : Z := (Cv.width r * Cv.height r)%Z.

(** Modelled from the spec: the area of the intersection of two
    rectangles, for the overlap of [bbNms], whose body is not part of the
    sources. *)
Definition interArea (a b : Cv.Rect) : Z :=
  let w := (Z.min (Cv.x a + Cv.width a) (Cv.x b + Cv.width b)
            - Z.max (Cv.x a) (Cv.x b))%Z in
  let h := (Z.min (Cv.y a + Cv.height a) (Cv.y b + Cv.height b)
            - Z.max (Cv.y a) (Cv.y b))%Z in
  (Z.max 0 w * Z.max 0 h)%Z.

(** Modelled from the spec: the overlap of two rectangles, the area of
    their intersection over the area of their union or, for the
    denominator ['min'], over the smaller of their areas. *)
Definition overlapOf (ovrDnm : string) (a b : Cv.Rect) : Qc :=
  let i := interArea a b in
  let d := if String.eqb ovrDnm "min" then Z.min (area a) (area b)
           else (area a + area b - i)%Z in
  Qc_of_Z i / Qc_of_Z d.

(** The parameters, with the defaults that the comment in ACF.h gives
    them: [overlap] 0.5, [ovrDnm] ['union'], [thr] minus infinity. *)
Definition getOverlap (pNms : Options.Nms.t) : Qc :=
  default (dec 1 2) (fvalue (Options.Nms.overlap pNms)).

Definition getOvrDnm (pNms : Options.Nms.t) : string :=
  default "union"%string (fvalue (Options.Nms.ovrDnm pNms)).

(** Modelled from the spec: the overlap of [b] with [a] exceeds
    [overlap]. *)
Definition exceeds (pNms : Options.Nms.t) (a b : Detection) : bool :=
  match getOverlap pNms ?= overlapOf (getOvrDnm pNms) (roi a) (roi b) with
  | Lt => true
  | _ => false
  end.

(** Modelled from the spec: [thr] is the threshold below which a
    candidate is discarded. *)
Definition aboveThr (pNms : Options.Nms.t) (d : Detection) : bool :=
  match fvalue (Options.Nms.thr pNms) with
  | None => true
  | Some t => match score d ?= t with Lt => false | _ => true end
  end.

(** Modelled from the spec: the candidates in descending order of score;
    candidates of one score keep the order in which they come. *)
Fixpoint insertDesc (d : Detection) (l : list Detection) : list Detection :=
  match l with
  | [] => [d]
  | e :: l' =>
      match score d ?= score e with
      | Lt => e :: insertDesc d l'
      | _ => d :: e :: l'
      end
  end.

Definition sortDesc (l : list Detection) : list Detection := foldr insertDesc [] l.

Definition candidates (pNms : Options.Nms.t) (bbs : list Detection) : list Detection :=
  sortDesc (List.filter (aboveThr pNms) bbs).

(** Modelled from the spec: the mode [max]: for each candidate in score
    order, every later candidate whose overlap with it exceeds [overlap]
    is discarded.  [seen] holds the candidates that came before. *)
Fixpoint nmsMax (pNms : Options.Nms.t) (seen l : list Detection) : list Detection :=
  match l with
  | [] => []
  | d :: l' =>
      if existsb (λ e, exceeds pNms e d) seen then nmsMax pNms (seen ++ [d]) l'
      else d :: nmsMax pNms (seen ++ [d]) l'
  end.

(** Modelled from the spec: the mode [maxg], the greedy variant: a
    candidate that is discarded discards no other.  [kept] holds the
    candidates retained so far. *)
Fixpoint nmsMaxg (pNms : Options.Nms.t) (kept l : list Detection) : list Detection :=
  match l with
  | [] => []
  | d :: l' =>
      if existsb (λ e, exceeds pNms e d) kept then nmsMaxg pNms kept l'
      else d :: nmsMaxg pNms (kept ++ [d]) l'
  end.

Definition suppressMax (pNms : Options.Nms.t) (bbs : list Detection) : list Detection :=
  nmsMax pNms [] (candidates pNms bbs).

Definition suppressMaxg (pNms : Options.Nms.t) (bbs : list Detection) : list Detection :=
  nmsMaxg pNms [] (candidates pNms bbs).
End BbNms.

(** ** Notions for the proofs about the running mean *)

Section Linear.
Local Open Scope Qc_scope.
Context {T : Type}.

(** Sums, differences and multiples of the values that satisfy [P]: the
    laws that the mean needs.  They hold for numbers and carry over to
    lists of a given length, hence to rows and to matrix data. *)
Record Linear (P : T → Prop) (pl mi : T → T → T) (sc : Qc → T → T) (zero : T) : Prop :=
  mkLinear {
    lin_pl_closed : ∀ x y, P x → P y → P (pl x y);
    lin_mi_closed : ∀ x y, P x → P y → P (mi x y);
    lin_sc_closed : ∀ a x, P x → P (sc a x);
    lin_zero_closed : P zero;
    lin_cma : ∀ a b s e, a * (1 - b) = b → P s → P e →
      pl (sc a s) (sc b (mi e (sc a s))) = sc b (pl s e);
    lin_assoc : ∀ x y z, P x → P y → P z → pl (pl x y) z = pl x (pl y z);
    lin_sc_sc : ∀ a b x, P x → sc a (sc b x) = sc (a * b) x;
    lin_sc_1 : ∀ x, P x → sc 1 x = x;
    lin_distr : ∀ a x y, P x → P y → pl (sc a x) (sc a y) = sc a (pl x y);
    lin_zero_r : ∀ x, P x → pl x zero = x;
    lin_zero_l : ∀ x, P x → pl zero x = x }.

Definition listOf (n : nat) (P : T → Prop) (l : list T) : Prop :=
  length l = n ∧ Forall P l.

End Linear.

(** Rows of [w] numbers and data of [h] such rows. *)
Definition rowOf (w : nat) : list Qc → Prop := listOf w (λ _ : Qc, True).
Definition dataOf (h w : nat) : list (list Qc) → Prop := listOf h (rowOf w).

(** The sum and the difference of two matrices of one size. *)
Abbreviation padd := (MatOp.zipData Qcplus).
Abbreviation psub := (MatOp.zipData Qcminus).

(** ** Sample inputs *)

Module Sample.
(** Three planes of one row and two columns, in two stacks. *)
Definition plane12 : Cv.Mat Z := Cv.mkMat 1 2 [[1; 2]]%Z.
Definition plane34 : Cv.Mat Z := Cv.mkMat 1 2 [[3; 4]]%Z.
Definition plane56 : Cv.Mat Z := Cv.mkMat 1 2 [[5; 6]]%Z.
Definition range3 : list (MatP Z) :=
  [mkMatP Cv.nil [plane12; plane34]; mkMatP Cv.nil [plane56]].

(** A plane of two rows, and a plane of three columns. *)
Definition plane2x2 : Cv.Mat Z := Cv.mkMat 2 2 [[7; 8]; [9; 10]]%Z.
Definition plane1x3 : Cv.Mat Z := Cv.mkMat 1 3 [[7; 8; 9]]%Z.

(** A colour: red 1, green 1/2, no blue. *)
Definition orange : Vec3f := mkVec3f (dec 1 1) (dec 1 2) (dec 0 1).

(** Three faces of one pixel with its three channel values. *)
Definition face1 : Mat3f := Cv.mkMat 1 3 [[dec 1 1; dec 1 2; dec 0 1]].
Definition face2 : Mat3f := Cv.mkMat 1 3 [[dec 0 1; dec 1 2; dec 1 1]].
Definition face3 : Mat3f := Cv.mkMat 1 3 [[dec 1 2; dec 1 4; dec 1 4]].

(** Options: a base that sets the stride and two fields of the
    suppression group, and an override that sets one field of that
    group. *)
Definition nmsBase : Options.Nms.t :=
  Options.Nms.mk
    (mkField "type" (Some "max"%string))
    Field_default
    Field_default
    Field_default
    (mkField "overlap" (Some (dec 1 2)))
    Field_default
    Field_default.

Definition nmsOverride : Options.Nms.t :=
  Options.Nms.mk
    Field_default
    Field_default
    Field_default
    Field_default
    (mkField "overlap" (Some (dec 2 5)))
    Field_default
    Field_default.

Definition baseOptions : Options.t :=
  Options.mk
    Field_default
    Field_default
    Field_default
    (mkField "pNms" (Some nmsBase))
    (mkField "stride" (Some 4%Z))
    Field_default
    Field_default
    Field_default
    Field_default
    Field_default
    Field_default
    Field_default
    Field_default
    Field_default
    Field_default
    Field_default
    Field_default
    Field_default
    Field_default
    Field_default
    Field_default
    Field_default.

Definition overrideOptions : Options.t :=
  Options.mk
    Field_default
    Field_default
    Field_default
    (mkField "pNms" (Some nmsOverride))
    Field_default
    Field_default
    Field_default
    Field_default
    Field_default
    Field_default
    Field_default
    Field_default
    Field_default
    Field_default
    Field_default
    Field_default
    Field_default
    Field_default
    Field_default
    Field_default
    Field_default
    Field_default.

(** Three detections: the second overlaps the first by 81/119, the third
    lies apart. *)
Definition detA : Detection := mkDetection (Cv.mkRect 0 0 10 10) (dec 9 10).
Definition detB : Detection := mkDetection (Cv.mkRect 1 1 10 10) (dec 8 10).
Definition detC : Detection := mkDetection (Cv.mkRect 20 20 10 10) (dec 7 10).
End Sample.


(** * Further code of the two files *)

(** ** Compile-time string hashing (ACF.h, [string_hash]) *)

(** What the hash depends on in the platform: whether [char] is signed,
    and the width of [std::size_t]. *)
Inductive SizeWidth : Type := Bits32 | Bits64.

Record Abi : Type := mkAbi { charSigned : bool; sizeWidth : SizeWidth }.

Module StringHash.
Definition sizeBits (abi : Abi) : Z :=
  match sizeWidth abi with Bits32 => 32 | Bits64 => 64 end.

(** Arithmetic of [std::size_t]. *)
Definition wrap (abi : Abi) (n : Z) : Z := n mod 2 ^ sizeBits abi.

(** The conversion [static_cast<unsigned int>] of a [char]: above 127 it is negative
    where [char] is signed, and the conversion adds 2^32. *)
Definition toUnsignedInt (abi : Abi) (c : ascii) : Z :=
  let b := Z.of_N (N_of_ascii c) in
  if charSigned abi && (128 <=? b)%Z then 2 ^ 32 - 256 + b else b.

(** [hasher<std::string>::operator()(char const *input)]: the characters
    at [input] up to the terminator; the string holds them, and the
    terminator follows it.  At the terminator the hash is 5381; before
    it, the character as an [unsigned int] plus 33 times the hash of the
    characters from [input + 1]. *)
Fixpoint hasher (abi : Abi) (input : string) : Z :=
  match input with
  | EmptyString => 5381
  | String c rest =>
      if Ascii.eqb c Ascii.zero then 5381
      else wrap abi (toUnsignedInt abi c + 33 * hasher abi rest)
  end.

(** [hasher<std::string>::operator()(const std::string &str)], which
    hashes [str.c_str()], and [string_hash::hash]; the suffix [_hash] of a
    literal computes the same. *)
Definition hash (abi : Abi) (str : string) : Z := hasher abi str.

(** The characters as digits in base 33, the first one lowest. *)
Fixpoint weights (abi : Abi) (s : string) : Z :=
  match s with
  | EmptyString => 0
  | String c rest => toUnsignedInt abi c + 33 * weights abi rest
  end.

(** No character of the string is the terminator. *)
Fixpoint noNul (s : string) : bool :=
  match s with
  | EmptyString => true
  | String c rest => negb (Ascii.eqb c Ascii.zero) && noNul rest
  end.
End StringHash.

(** ** The ground truth format (facecrop.cpp) *)

Inductive GroundTruthFormat : Type :=
| MUCTFormat
| FDDBFormat
| HELENFormat
| BIOIDFormat
| LFWFormat
| DRISHTIFormat
| LFPWFormat
| TWOFormat.

(** [SUPPORTED_FORMATS], which the help text shows. *)
Definition SUPPORTED_FORMATS : string := "muct,fddb,helen,bioid,lfw,drishti,lfpw,two".

(** The names of a comma-separated list. *)
Fixpoint splitComma (s : string) (word : string) : list string :=
  match s with
  | EmptyString => [word]
  | String c rest =>
      if Ascii.eqb c "," then word :: splitComma rest ""
      else splitComma rest (word +:+ String c "")
  end.

(** The [switch(string_hash::hash(sFormat))] of [main] with its labels
    ["two"_hash], ...: the format that it selects (the table is then
    parsed in that format); its default is [CV_Assert(false)].  [main]
    takes [string_hash::hash] and the literal operator [_hash] from
    drishti/core/drishti_string_hash.h, a header that is not among the
    sources: [hash] stands for the function that both apply.  ACF.h
    declares a [string_hash::hasher] under the same names, which is
    [StringHash.hash].  (Labels of one value do not compile; the first
    of them would be taken here.) *)
Definition formatSwitch (hash : string → Z) (sFormat : string) : result GroundTruthFormat :=
  let h := hash sFormat in
  if (h =? hash "two")%Z then Done TWOFormat
  else if (h =? hash "drishti")%Z then Done DRISHTIFormat
  else if (h =? hash "lfw")%Z then Done LFWFormat
  else if (h =? hash "muct")%Z then Done MUCTFormat
  else if (h =? hash "helen")%Z then Done HELENFormat
  else if (h =? hash "bioid")%Z then Done BIOIDFormat
  else if (h =? hash "lfpw")%Z then Done LFPWFormat
  else Fault CvError.

(** ** File names (facecrop.cpp) *)

Module Path.
(** [s.back()] *)
Fixpoint back (s : string) : option ascii :=
  match s with
  | EmptyString => None
  | String c EmptyString => Some c
  | String _ rest => back rest
  end.

(** The update of the file names of the table by the base directory in
    [main]; [lines] holds the field [filename] of each line.
    [if(sDirectory.back() != '/') sDirectory += "/";] and then, for each
    line, [l.filename = sDirectory + l.filename;
    if(!sExtension.empty()) l.filename += ".png";] *)
Definition resolve (sDirectory sExtension : string) (lines : list string) : list string :=
  match sDirectory with
  | EmptyString => lines
  | _ =>
      let dir := if decide (back sDirectory = Some "/"%char) then sDirectory
                 else sDirectory +:+ "/" in
      (λ filename,
         let f := dir +:+ filename in
         match sExtension with
         | EmptyString => f
         | _ => f +:+ ".png"
         end) <$> lines
  end.

Fixpoint fillString (n : nat) (fill : ascii) : string :=
  match n with
  | 0 => ""
  | S n' => String fill (fillString n' fill)
  end.

(** [os << std::setfill(fill) << std::setw(width) << text]: the text,
    filled on the left up to the width. *)
Definition setw (fill : ascii) (width : nat) (text : string) : string :=
  fillString (width - String.length text) fill +:+ text.

(** The name of the file that [save] writes for the face [i] of the
    image [index]; [base] is [drishti::core::basename(filename)].
    [ss << std::setfill('0') << std::setw(6) << index << "_" << std::setw(2) << i;
     sOutput = dir + "/" + ss.str() + "_" + base + ".png"] *)
Definition saveName (dir base : string) (index i : Z) : string :=
  dir +:+ "/" +:+ (setw "0" 6 (pretty index) +:+ "_" +:+ setw "0" 2 (pretty i))
      +:+ "_" +:+ base +:+ ".png".

(** [save(faces, dir, filename, index)]: the files that [cv::imwrite]
    writes, in order, with their images.
    [for(int i = 0; i < faces.size(); i++)] *)
Definition save {Img : Type} (basename : string → string) (faces : list Img)
    (dir filename : string) (index : Z) : list (string * Img) :=
  imap (λ i face, (saveName dir (basename filename) index (Z.of_nat i), face)) faces.
End Path.

(** ** The default configurations (facecrop.cpp) *)

(** The files written and the errors logged so far. *)
Record Output : Type := mkOutput { written : list string; errors : list string }.

(** [saveDefaultJitter]; [canOpen] tells whether a [std::ofstream] on
    the path opens. *)
Definition saveDefaultJitter (canOpen : string → bool) (sOutput : string)
    (out : Output) : Z * Output :=
  let path := sOutput +:+ "/jitter.json" in
  if canOpen path then (0%Z, mkOutput (written out ++ [path]) (errors out))
  else ((-1)%Z, mkOutput (written out)
                  (errors out ++ ["Error: unable to write default jitter parameters"])).

(** [saveDefaultFaceSpec] *)
Definition saveDefaultFaceSpec (canOpen : string → bool) (sOutput : string)
    (out : Output) : Z * Output :=
  let path := sOutput +:+ "/face.json" in
  if canOpen path then (0%Z, mkOutput (written out ++ [path]) (errors out))
  else ((-1)%Z, mkOutput (written out)
                  (errors out ++ ["Error: unable to write default face specification parameters"])).

(** A [bool] as an [int]. *)
Definition intOfBool (b : bool) : Z := if b then 1%Z else 0%Z.

(** [saveDefaultConfigs]:
    [if(int code = saveDefaultJitter(sOutput, logger) != 0) return code;
     if(int code = saveDefaultFaceSpec(sOutput, logger) != 0) return code;
     return 0;]
    where [code] is initialised with the comparison. *)
Definition saveDefaultConfigs (canOpen : string → bool) (sOutput : string)
    (out : Output) : Z * Output :=
  let (r1, out1) := saveDefaultJitter canOpen sOutput out in
  let code1 := intOfBool (negb (r1 =? 0)%Z) in
  if negb (code1 =? 0)%Z then (code1, out1)
  else
    let (r2, out2) := saveDefaultFaceSpec canOpen sOutput out1 in
    let code2 := intOfBool (negb (r2 =? 0)%Z) in
    if negb (code2 =? 0)%Z then (code2, out2)
    else (0%Z, out2).

(** The step of [main]
    [if(doBoilerplate)
       { if(int code = saveDefaultConfigs(sOutput, logger) < 0) return code; }]:
    the value that [main] returns there, if it returns. *)
Definition boilerplateStep (doBoilerplate : bool) (canOpen : string → bool)
    (sOutput : string) (out : Output) : option Z * Output :=
  if doBoilerplate then
    let (r, out') := saveDefaultConfigs canOpen sOutput out in
    let code := intOfBool (r <? 0)%Z in
    if negb (code =? 0)%Z then (Some code, out') else (None, out')
  else (None, out).

(** ** The samples per image (facecrop.cpp) *)

(** [repeat[i]++] for each of the drawn indices. *)
Fixpoint countDraws (draws : list Z) (rep : list Z) : result (list Z) :=
  match draws with
  | [] => Done rep
  | i :: draws' =>
      if decide (0 ≤ i < Z.of_nat (length rep))%Z then
        countDraws draws' (alter (λ r, r + 1)%Z (Z.to_nat i) rep)
      else Fault UndefinedBehaviour
  end.

(** The vector [repeat] of [main] for [lines] images; [draws] is the
    content of [samples] after [cv::RNG().fill(samples, 0, 0, lines)].
    [std::vector<int> repeat(table.lines.size(), 1);
     if(sampleCount > 0) { std::fill(begin(repeat), end(repeat), 0); ... }] *)
Definition repeatCounts (lines : nat) (sampleCount : Z) (draws : list Z) : result (list Z) :=
  if (0 <? sampleCount)%Z then countDraws draws (replicate lines 0%Z)
  else Done (replicate lines 1%Z).

(** The faces that the harness makes of one image: [jitter j doJitter]
    is the [j]-th call of the jitterer on it.
    [if(repeat[i] > 0) { image = imread(...); if(!image.empty()) {
       faces { jitterer(image, points, false, true) };
       for(int j = 1; j < repeat[i]; j++)
         faces.push_back(jitterer(image, points, !doPhotometricJitterOnly, true)); ...] *)
Definition facesOf {Img : Type} (jitter : nat → bool → Img) (rep : Z)
    (readable doPhotometricJitterOnly : bool) : list Img :=
  if (0 <? rep)%Z && readable then
    jitter 0 false
      :: ((λ j, jitter j (negb doPhotometricJitterOnly)) <$> seq 1 (Z.to_nat rep - 1))
  else [].

(** ** Faces of 8 bits (facecrop.cpp) *)

(** [f.convertTo(F, CV_32FC3, alpha)] *)
Definition convertTo (alpha : Qc) (f : Cv.Mat Z) : Mat3f :=
  Cv.mkMat (Cv.rows f) (Cv.cols f)
    (fmap (M:=list) (λ v, Qc_of_Z v * alpha)%Qc <$> Cv.data f).

(** [updateMean(const std::vector<cv::Mat> &faces)]: [faces.front()] has
    no meaning for an empty vector. *)
Definition updateMeanFaces (faces : list (Cv.Mat Z)) (j : FaceJittererMean)
    : result FaceJittererMean :=
  match faces with
  | [] => Fault UndefinedBehaviour
  | _ :: _ => updateMeans (convertTo (dec 1 1 / dec 255 1)%Qc <$> faces) j
  end.

(** The calls [updateMean(faces)] of a thread for its images, one after
    the other. *)
Fixpoint updateMeanImages (images : list (list (Cv.Mat Z))) (j : FaceJittererMean)
    : result FaceJittererMean :=
  match images with
  | [] => Done j
  | faces :: images' =>
      match updateMeanFaces faces j with
      | Fault e => Fault e
      | Done j' => updateMeanImages images' j'
      end
  end.

(** All entries of the matrix lie between [lo] and [hi]. *)
Definition within (lo hi : Qc) (m : Mat3f) : Prop :=
  Forall (Forall (λ v, lo ≤ v ∧ v ≤ hi)%Qc) (Cv.data m).

(** ** Notions for the proofs about file names *)

Module Digits.
(** The value of a decimal digit, and of a string of digits. *)
Definition digitValue (c : ascii) : N :=
  (if Ascii.eqb c "1" then 1 else if Ascii.eqb c "2" then 2
   else if Ascii.eqb c "3" then 3 else if Ascii.eqb c "4" then 4
   else if Ascii.eqb c "5" then 5 else if Ascii.eqb c "6" then 6
   else if Ascii.eqb c "7" then 7 else if Ascii.eqb c "8" then 8
   else if Ascii.eqb c "9" then 9 else 0)%N.

Definition isDigit (c : ascii) : bool :=
  Ascii.eqb c "0" || negb (N.eqb (digitValue c) 0).

Fixpoint numValue (s : string) : N :=
  match s with
  | EmptyString => 0
  | String c rest => digitValue c * 10 ^ N.of_nat (String.length rest) + numValue rest
  end%N.

Fixpoint allDigits (s : string) : bool :=
  match s with
  | EmptyString => true
  | String c rest => isDigit c && allDigits rest
  end.
End Digits.
(** * Properties *)

(** ** fuseChannels *)

Section FuseChannelsFacts.
Context {A : Type}.
Implicit Types (p : Cv.Mat A) (stack : list (Cv.Mat A)).

Lemma take_drop_concat (l : list (list (list A))) (h j : nat) (d : list (list A)) :
  Forall (λ r, length r = h) l → l !! j = Some d →
  take h (drop (j * h) (concat l)) = d.
Proof.
  intros Hl. revert j. induction Hl as [|d0 l Hd0 Hl IH]; intros j Hj.
  - by rewrite lookup_nil in Hj.
  - destruct j as [|j]; simpl in *.
    + injection Hj as ->. by apply take_app_length'.
    + subst h. rewrite drop_app_add. by apply IH.
Qed.

Lemma sum_rows_sized (h w : nat) stack :
  Forall (Cv.hasSize h w) stack → sum_list (Cv.rows <$> stack) = length stack * h.
Proof.
  induction 1 as [|p stack [Hr _] _ IH]; csimpl; [done|]. rewrite Hr, IH. lia.
Qed.

Lemma data_rows_sized (h w : nat) stack :
  Forall (Cv.hasSize h w) stack → Forall (λ d, length d = h) (Cv.data <$> stack).
Proof.
  induction 1 as [|p stack (Hr & _ & Hl & _) _ IH]; constructor; [congruence | done].
Qed.

Lemma fmap_take_id (w : nat) (d : list (list A)) :
  Forall (λ r, length r = w) d →
  (λ r, take (Z.to_nat (Z.of_nat w)) (drop (Z.to_nat 0) r)) <$> d = d.
Proof.
  rewrite Nat2Z.id. induction 1 as [|row d Hrow _ IH]; csimpl; [done|].
  f_equal; [apply take_ge; lia | done].
Qed.

(** The view of the stacked matrix on the [j]-th block of rows is the
    [j]-th plane. *)
Lemma submat_plane (h w j : nat) stack p :
  Forall (Cv.hasSize h w) stack → stack !! j = Some p →
  Cv.submat (Cv.mkMat (length stack * h) w (concat (Cv.data <$> stack)))
            (Cv.mkRect 0 (Z.of_nat (j * h)) (Z.of_nat w) (Z.of_nat h)) = Done p.
Proof.
  intros Hs Hj. unfold Cv.submat; cbn [Cv.x Cv.y Cv.width Cv.height Cv.rows Cv.cols Cv.data].
  pose proof (lookup_lt_Some _ _ _ Hj) as Hlt.
  rewrite decide_True by (split_and!; nia).
  rewrite !Nat2Z.id, (take_drop_concat _ h j (Cv.data p)).
  - rewrite Forall_lookup in Hs. destruct (Hs _ _ Hj) as (Hr & Hc & Hl & Hw).
    destruct p as [r c d]; simpl in *; subst r c.
    pose proof (fmap_take_id w d Hw) as Hid. rewrite Nat2Z.id in Hid.
    by rewrite Hid.
  - by eapply data_rows_sized.
  - by rewrite list_lookup_fmap, Hj.
Qed.

(** From the [j]-th plane on, the loop rewrites every plane with itself
    and ends. *)
Lemma fuseLoop_sized (h w : nat) stack (fuel j : nat) :
  Forall (Cv.hasSize h w) stack → j ≤ length stack →
  length stack - j ≤ fuel →
  fuseLoop fuel (Cv.mkMat (length stack * h) w (concat (Cv.data <$> stack)))
           (Cv.mkRect 0 (Z.of_nat (j * h)) (Z.of_nat w) (Z.of_nat h)) j stack
  = Done stack.
Proof.
  intros Hs. revert j. induction fuel as [|fuel IH]; intros j Hj Hfuel;
    cbn [fuseLoop Cv.x Cv.y Cv.width Cv.height Cv.rows].
  - rewrite decide_False; [done | nia].
  - destruct (decide (Z.of_nat (j * h) < Z.of_nat (length stack * h))%Z) as [Hlt|]; [|done].
    assert (j < length stack) as Hj' by nia.
    destruct (lookup_lt_is_Some_2 stack j Hj') as [p Hp].
    rewrite (submat_plane h w j stack p Hs Hp).
    rewrite decide_True by done. rewrite (list_insert_id _ _ _ Hp).
    replace (Z.of_nat (j * h) + Z.of_nat h)%Z with (Z.of_nat (S j * h)) by lia.
    apply IH; lia.
Qed.

(** Planes of one size, at least one of them: the fused stack holds the
    planes as they come and its base holds them one below the other. *)
Lemma fuseChannels_sized (h w : nat) (range : list (MatP A)) :
  concat (get <$> range) ≠ [] →
  Forall (Cv.hasSize h w) (concat (get <$> range)) →
  fuseChannels range =
    Done (mkMatP (Cv.mkMat (length (concat (get <$> range)) * h) w
                    (concat (Cv.data <$> concat (get <$> range))))
                 (concat (get <$> range))).
Proof.
  intros Hne Hs. unfold fuseChannels.
  destruct (concat (get <$> range)) as [|front stack] eqn:E; [done|].
  unfold Cv.vconcat.
  pose proof (Forall_inv Hs) as (Hr & Hc & _).
  rewrite decide_True.
  2:{ eapply Forall_impl; [exact Hs|]. intros m (_ & Hm & _). congruence. }
  rewrite (sum_rows_sized h w _ Hs), Hr, Hc. cbn [Cv.rows].
  pose proof (fuseLoop_sized h w (front :: stack) (length (front :: stack) * h) 0 Hs) as HL.
  destruct (decide (h = 0)) as [->|Hh].
  - destruct (length (front :: stack) * 0) eqn:E0; [|lia].
    unfold fuseLoop. by rewrite decide_False by (simpl; lia).
  - change (Z.of_nat (0 * h)) with 0%Z in HL. rewrite HL; [done | lia | nia].
Qed.
End FuseChannelsFacts.

(** The function on samples: three planes of one size; a stack without
    a plane, where [stack.front()] is undefined; planes of different
    widths, which [cv::vconcat] refuses; planes of different heights,
    where the loop runs past the end of [stack]. *)
Example fuseChannels_sample :
  fuseChannels Sample.range3
  = Done (mkMatP (Cv.mkMat 3 2 [[1; 2]; [3; 4]; [5; 6]]%Z)
                 [Sample.plane12; Sample.plane34; Sample.plane56]).
Proof. reflexivity. Qed.

Example fuseChannels_no_plane :
  fuseChannels [mkMatP (Cv.nil (A:=Z)) []] = Fault UndefinedBehaviour.
Proof. reflexivity. Qed.

Example fuseChannels_widths :
  fuseChannels [mkMatP Cv.nil [Sample.plane12; Sample.plane1x3]] = Fault CvError.
Proof. reflexivity. Qed.

Example fuseChannels_heights :
  fuseChannels [mkMatP Cv.nil [Sample.plane12; Sample.plane2x2]]
  = Fault UndefinedBehaviour.
Proof. reflexivity. Qed.

(** C10. For a non-empty range of channel stacks, each of at least one
    plane and all planes of one size [h] x [w], [fuseChannels] returns:
    the number of planes of the output is the sum of the numbers of
    planes of the inputs, and its planes are those of the inputs,
    concatenated in the order of iteration (so its [j]-th plane is the
    [j]-th of them, for every [j]). *)
Theorem fuseChannels_preserves_planes {A : Type} (h w : nat) (range : list (MatP A)) :
  range ≠ [] →
  Forall (λ Ip, get Ip ≠ []) range →
  Forall (λ Ip, Forall (Cv.hasSize h w) (get Ip)) range →
  ∃ out, fuseChannels range = Done out
    ∧ length (get out) = sum_list (length ∘ get <$> range)
    ∧ get out = concat (get <$> range)
    ∧ (∀ j, get out !! j = concat (get <$> range) !! j).
Proof.
  intros Hne Hplanes Hsize.
  eexists. split; [apply (fuseChannels_sized h w)|].
  - destruct range as [|Ip range]; [done|]. csimpl.
    apply Forall_inv in Hplanes. by destruct (get Ip).
  - clear -Hsize. induction Hsize; csimpl; [done|]. by apply Forall_app.
  - simpl. split_and!; [|done|done].
    clear. induction range as [|Ip range IH]; csimpl; [done|].
    by rewrite length_app, IH.
Qed.

Lemma fuseChannels_preserves_planes_witness :
  ∃ out, fuseChannels Sample.range3 = Done out
    ∧ length (get out) = sum_list (length ∘ get <$> Sample.range3)
    ∧ get out = concat (get <$> Sample.range3)
    ∧ (∀ j, get out !! j = concat (get <$> Sample.range3) !! j).
Proof.
  apply (fuseChannels_preserves_planes 1 2 Sample.range3).
  - discriminate.
  - repeat constructor; discriminate.
  - repeat constructor.
Defined.

(** ** rgb2luv *)

Section Rgb2luvFacts.
Local Open Scope Qc_scope.

(** Orders on [Qc] are those of [Q] on the underlying fractions. *)
Ltac to_Q :=
  unfold Qclt, Qcle in *; cbn [this Qcplus Qcmult Qcopp Qcminus Q2Qc] in *;
  rewrite ?Qred_correct in *.

Lemma Qc_nonneg_weighted (w x : Qc) : 0 < w → 0 ≤ x → 0 ≤ w * x.
Proof.
  intros Hw Hx. to_Q. apply Qmult_le_0_compat; [by apply Qlt_le_weak | done].
Qed.

Lemma Qc_nonneg_plus (x y : Qc) : 0 ≤ x → 0 ≤ y → 0 ≤ x + y.
Proof. intros Hx Hy. to_Q. lra. Qed.

Lemma Qc_pos_plus (x y : Qc) : 0 ≤ x → 0 < y → 0 < x + y.
Proof. intros Hx Hy. to_Q. lra. Qed.

Lemma dec_pos (n d : positive) : 0 < dec (Z.pos n) d.
Proof. unfold dec. to_Q. done. Qed.

(** The tristimulus values of a colour without a negative component are
    not negative. *)
Lemma xyz_nonneg (rgb : Vec3f) :
  0 ≤ v0 rgb → 0 ≤ v1 rgb → 0 ≤ v2 rgb →
  0 ≤ v0 (Luv.xyz rgb) ∧ 0 ≤ v1 (Luv.xyz rgb) ∧ 0 ≤ v2 (Luv.xyz rgb).
Proof.
  intros H0 H1 H2. unfold Luv.xyz, Luv.RGBtoXYZ, Matx33f_mul, Matx33f_t.
  cbn [v0 v1 v2 m00 m01 m02 m10 m11 m12 m20 m21 m22].
  split_and!; repeat apply Qc_nonneg_plus; by apply Qc_nonneg_weighted; [apply dec_pos|].
Qed.

Lemma c_lower_bound (rgb : Vec3f) :
  0 ≤ v0 rgb → 0 ≤ v1 rgb → 0 ≤ v2 rgb → Luv.eps ≤ Luv.c rgb.
Proof.
  intros H0 H1 H2. destruct (xyz_nonneg rgb H0 H1 H2) as (Hx & Hy & Hz).
  assert (0 ≤ Vec3f_dot (Luv.xyz rgb) Luv.k) as Hdot.
  { unfold Vec3f_dot, Luv.k. cbn [v0 v1 v2].
    repeat apply Qc_nonneg_plus; rewrite Qcmult_comm;
      by apply Qc_nonneg_weighted; [apply dec_pos|]. }
  unfold Luv.c. revert Hdot. generalize (Vec3f_dot (Luv.xyz rgb) Luv.k).
  intros d Hd. to_Q. lra.
Qed.

Lemma eps_pos : 0 < Luv.eps.
Proof. apply dec_pos. Qed.

(** C8. [rgb2luv] divides by [c], the dot product of the XYZ vector
    with (1, 15, 3) plus the constant 1e-35.  For every input without a
    negative component [c] is strictly positive, so that [z = 1/c] is the
    reciprocal of [c], the division is defined, and the triple that
    [rgb2luv] returns has the chromaticity terms [52 X / c] and
    [117 Y / c]. *)
Theorem rgb2luv_denominator_positive (pow : Qc → Qc → Qc) (rgb : Vec3f) :
  0 ≤ v0 rgb → 0 ≤ v1 rgb → 0 ≤ v2 rgb →
  Luv.c rgb = Vec3f_dot (Luv.xyz rgb) (mkVec3f (dec 1 1) (dec 15 1) (dec 3 1))
              + dec 1 (10 ^ 35)
  ∧ 0 < Luv.c rgb
  ∧ Luv.c rgb * Luv.z rgb = 1
  ∧ v1 (rgb2luv pow rgb)
    = v0 (rgb2luv pow rgb)
      * (dec 52 1 * v0 (Luv.xyz rgb) / Luv.c rgb - dec 13 1 * Luv.un) - Luv.minu
  ∧ v2 (rgb2luv pow rgb)
    = v0 (rgb2luv pow rgb)
      * (dec 117 1 * v1 (Luv.xyz rgb) / Luv.c rgb - dec 13 1 * Luv.vn) - Luv.minv.
Proof.
  intros H0 H1 H2.
  assert (0 < Luv.c rgb) as Hc.
  { eapply Qclt_le_trans; [apply eps_pos | by apply c_lower_bound]. }
  assert (Luv.c rgb ≠ 0) as Hne by (apply not_eq_sym, Qclt_not_eq, Hc).
  split_and!; [done | done | | |].
  - unfold Luv.z. change (dec 1 1) with 1. by field.
  - unfold rgb2luv, Luv.z. cbn [v0 v1 v2]. change (dec 1 1) with 1. by field.
  - unfold rgb2luv, Luv.z. cbn [v0 v1 v2]. change (dec 1 1) with 1. by field.
Qed.

Lemma rgb2luv_denominator_positive_witness :
  0 < Luv.c Sample.orange ∧ Luv.c Sample.orange * Luv.z Sample.orange = 1.
Proof.
  destruct (rgb2luv_denominator_positive (λ b _, b) Sample.orange)
    as (_ & Hc & Hz & _); [done | done | done |].
  split; [exact Hc | exact Hz].
Defined.
End Rgb2luvFacts.

(** ** The running mean *)

Section ListOf.
Context {T : Type}.

Lemma listOf_nil (P : T → Prop) : listOf 0 P [].
Proof. by split. Qed.

Lemma listOf_cons (n : nat) (P : T → Prop) (x : T) (l : list T) :
  listOf (S n) P (x :: l) ↔ P x ∧ listOf n P l.
Proof.
  unfold listOf. rewrite Forall_cons. simpl. split.
  - intros (Hl & Hx & Hf). split_and!; [done | lia | done].
  - intros (Hx & Hl & Hf). split_and!; [lia | done | done].
Qed.

Lemma listOf_inv (n : nat) (P : T → Prop) (l : list T) :
  listOf n P l →
  match n with
  | 0 => l = []
  | S n' => ∃ x l', l = x :: l' ∧ P x ∧ listOf n' P l'
  end.
Proof.
  intros [Hl Hf]. destruct n as [|n'], l as [|x l']; simpl in Hl; try done.
  exists x, l'. apply Forall_cons in Hf as [Hx Hf]. split_and!; [done | done |].
  split; [lia | done].
Qed.
End ListOf.

(** Takes apart the hypotheses [listOf n P l] after a case on [n]. *)
Ltac listOf_inv :=
  repeat match goal with
         | H : listOf 0 _ _ |- _ => apply listOf_inv in H; subst
         | H : listOf (S _) _ _ |- _ =>
             apply listOf_inv in H; destruct H as (? & ? & -> & ? & ?)
         end.

Section LinearList.
Local Open Scope Qc_scope.
Context {T : Type} (P : T → Prop) (pl mi : T → T → T) (sc : Qc → T → T) (zero : T).
Hypothesis HL : Linear P pl mi sc zero.

Lemma Linear_list (n : nat) :
  Linear (listOf n P) (zip_with pl) (zip_with mi) (λ a, fmap (sc a)) (replicate n zero).
Proof.
  destruct HL. split.
  - induction n; intros x y Hx Hy; listOf_inv; csimpl;
      [apply listOf_nil | apply listOf_cons; auto].
  - induction n; intros x y Hx Hy; listOf_inv; csimpl;
      [apply listOf_nil | apply listOf_cons; auto].
  - induction n; intros a x Hx; listOf_inv; csimpl;
      [apply listOf_nil | apply listOf_cons; auto].
  - induction n; csimpl; [apply listOf_nil | apply listOf_cons; auto].
  - induction n; intros a b s e Hab Hs He; listOf_inv; csimpl; [done|].
    f_equal; auto.
  - induction n; intros x y z Hx Hy Hz; listOf_inv; csimpl; [done|].
    f_equal; auto.
  - induction n; intros a b x Hx; listOf_inv; csimpl; [done|]. f_equal; auto.
  - induction n; intros x Hx; listOf_inv; csimpl; [done|]. f_equal; auto.
  - induction n; intros a x y Hx Hy; listOf_inv; csimpl; [done|]. f_equal; auto.
  - induction n; intros x Hx; listOf_inv; csimpl; [done|]. f_equal; auto.
  - induction n; intros x Hx; listOf_inv; csimpl; [done|]. f_equal; auto.
Qed.
End LinearList.

Section MeanFacts.
Local Open Scope Qc_scope.

Lemma Linear_Qc : Linear (λ _ : Qc, True) Qcplus Qcminus Qcmult 0.
Proof.
  split; try done; intros.
  - transitivity (a * (1 - b) * s + b * e); [ring|]. rewrite H. ring.
  - ring.
  - ring.
  - ring.
  - ring.
  - ring.
  - ring.
Qed.

Lemma Linear_data (h w : nat) :
  Linear (dataOf h w) (zip_with (zip_with Qcplus)) (zip_with (zip_with Qcminus))
         (λ a, fmap (M:=list) (fmap (M:=list) (Qcmult a)))
         (replicate h (replicate w 0)).
Proof. apply Linear_list, Linear_list, Linear_Qc. Qed.

Lemma hasSize_dataOf (h w : nat) (m : Mat3f) :
  Cv.hasSize h w m ↔ Cv.rows m = h ∧ Cv.cols m = w ∧ dataOf h w (Cv.data m).
Proof.
  unfold Cv.hasSize, Cv.wf, dataOf, rowOf, listOf. split.
  - intros (Hr & Hc & Hl & Hf). subst. split_and!; try done.
    eapply Forall_impl; [exact Hf|]. intros r Hrow. split; [done|].
    by apply Forall_true.
  - intros (Hr & Hc & Hl & Hf). subst h w. split_and!; try done.
    eapply Forall_impl; [exact Hf|]. by intros r [Hrow _].
Qed.

Section Sized.
Context (h w : nat).
Implicit Types (m S E : Mat3f).

Lemma padd_sized m1 m2 :
  Cv.hasSize h w m1 → Cv.hasSize h w m2 → Cv.hasSize h w (padd m1 m2).
Proof.
  rewrite !hasSize_dataOf. intros (? & ? & H1) (? & ? & H2). split_and!; try done.
  by apply (lin_pl_closed _ _ _ _ _ (Linear_data h w)).
Qed.

Lemma psub_sized m1 m2 :
  Cv.hasSize h w m1 → Cv.hasSize h w m2 → Cv.hasSize h w (psub m1 m2).
Proof.
  rewrite !hasSize_dataOf. intros (? & ? & H1) (? & ? & H2). split_and!; try done.
  by apply (lin_mi_closed _ _ _ _ _ (Linear_data h w)).
Qed.

Lemma scale_sized a m : Cv.hasSize h w m → Cv.hasSize h w (MatOp.scale a m).
Proof.
  rewrite !hasSize_dataOf. intros (? & ? & H1). split_and!; try done.
  by apply (lin_sc_closed _ _ _ _ _ (Linear_data h w)).
Qed.

Lemma zeros_sized : Cv.hasSize h w (zeros h w).
Proof.
  rewrite hasSize_dataOf. split_and!; try done.
  apply (lin_zero_closed _ _ _ _ _ (Linear_data h w)).
Qed.

Lemma add_sized m1 m2 :
  Cv.hasSize h w m1 → Cv.hasSize h w m2 → MatOp.add m1 m2 = Done (padd m1 m2).
Proof.
  intros (? & ? & _) (? & ? & _). unfold MatOp.add.
  rewrite decide_True; [done | split; congruence].
Qed.

Lemma sub_sized m1 m2 :
  Cv.hasSize h w m1 → Cv.hasSize h w m2 → MatOp.sub m1 m2 = Done (psub m1 m2).
Proof.
  intros (? & ? & _) (? & ? & _). unfold MatOp.sub.
  rewrite decide_True; [done | split; congruence].
Qed.

Lemma empty_sized m : Cv.hasSize h w m → Cv.empty m = Nat.eqb (h * w) 0.
Proof. unfold Cv.empty. by intros (-> & -> & _). Qed.

(** There is one matrix of a size without elements. *)
Lemma sized_no_element m : (h * w = 0)%nat → Cv.hasSize h w m → m = zeros h w.
Proof.
  intros Hhw (Hr & Hc & Hl & Hf). destruct m as [r c d]; simpl in *. subst r c.
  unfold zeros. f_equal. apply list_eq_same_length with h; [apply length_replicate | done |].
  intros i x y Hi Hx Hy. rewrite Forall_lookup in Hf. specialize (Hf _ _ Hx).
  apply lookup_replicate in Hy as [-> _].
  assert (w = 0)%nat as -> by nia. by destruct x.
Qed.

Ltac mat_law L :=
  rewrite ?hasSize_dataOf; intros;
  repeat match goal with H : _ ∧ _ |- _ => destruct H end;
  unfold MatOp.zipData, MatOp.scale, zeros; cbn [Cv.rows Cv.cols Cv.data];
  try match goal with |- _ = ?m => is_var m; destruct m; simplify_eq/= end;
  f_equal; by apply (L _ _ _ _ _ (Linear_data h w)).

Lemma mat_cma (a b : Qc) S E :
  a * (1 - b) = b → Cv.hasSize h w S → Cv.hasSize h w E →
  padd (MatOp.scale a S) (MatOp.scale b (psub E (MatOp.scale a S)))
  = MatOp.scale b (padd S E).
Proof. mat_law (@lin_cma (list (list Qc))). Qed.

Lemma mat_assoc m1 m2 m3 :
  Cv.hasSize h w m1 → Cv.hasSize h w m2 → Cv.hasSize h w m3 →
  padd (padd m1 m2) m3 = padd m1 (padd m2 m3).
Proof. mat_law (@lin_assoc (list (list Qc))). Qed.

Lemma mat_sc_sc (a b : Qc) m :
  Cv.hasSize h w m → MatOp.scale a (MatOp.scale b m) = MatOp.scale (a * b) m.
Proof. mat_law (@lin_sc_sc (list (list Qc))). Qed.

Lemma mat_sc_1 m : Cv.hasSize h w m → MatOp.scale 1 m = m.
Proof. mat_law (@lin_sc_1 (list (list Qc))). Qed.

Lemma mat_distr (a : Qc) m1 m2 :
  Cv.hasSize h w m1 → Cv.hasSize h w m2 →
  padd (MatOp.scale a m1) (MatOp.scale a m2) = MatOp.scale a (padd m1 m2).
Proof. mat_law (@lin_distr (list (list Qc))). Qed.

Lemma mat_zero_r m : Cv.hasSize h w m → padd m (zeros h w) = m.
Proof. mat_law (@lin_zero_r (list (list Qc))). Qed.

Lemma mat_zero_l m : Cv.hasSize h w m → padd (zeros h w) m = m.
Proof. mat_law (@lin_zero_l (list (list Qc))). Qed.

Lemma matSum_sized (xs : list Mat3f) :
  Forall (Cv.hasSize h w) xs → Cv.hasSize h w (matSum h w xs).
Proof.
  induction 1; simpl; [apply zeros_sized | by apply padd_sized].
Qed.

Lemma matSum_app (xs ys : list Mat3f) :
  Forall (Cv.hasSize h w) xs → Forall (Cv.hasSize h w) ys →
  matSum h w (xs ++ ys) = padd (matSum h w xs) (matSum h w ys).
Proof.
  intros Hxs Hys. induction Hxs as [|x xs Hx Hxs IH]; simpl.
  - symmetry. by apply mat_zero_l, matSum_sized.
  - fold (matSum h w (xs ++ ys)). fold (matSum h w xs).
    rewrite IH. symmetry. by apply mat_assoc; [|apply matSum_sized..].
Qed.

Lemma Qc_of_Z_plus (a b : Z) : Qc_of_Z (a + b) = Qc_of_Z a + Qc_of_Z b.
Proof.
  unfold Qc_of_Z. apply Qc_is_canon. simpl. rewrite !Qred_correct.
  by rewrite inject_Z_plus.
Qed.

Lemma Qc_of_Z_nonzero (n : Z) : n ≠ 0%Z → Qc_of_Z n ≠ 0.
Proof.
  intros Hn Heq. apply Q2Qc_eq_iff in Heq. unfold Qeq in Heq. simpl in Heq. lia.
Qed.

Lemma Qc_of_Z_1 : Qc_of_Z 1 = 1.
Proof. by apply Qc_is_canon. Qed.

(** The weights of two successive steps of the moving average. *)
Lemma cma_weights (n : Z) :
  (1 ≤ n)%Z →
  dec 1 1 / Qc_of_Z n * (1 - dec 1 1 / Qc_of_Z (n + 1)) = dec 1 1 / Qc_of_Z (n + 1).
Proof.
  intros Hn. rewrite Qc_of_Z_plus, Qc_of_Z_1. change (dec 1 1) with 1.
  assert (Qc_of_Z n ≠ 0) by (apply Qc_of_Z_nonzero; lia).
  assert (Qc_of_Z n + 1 ≠ 0).
  { rewrite <- Qc_of_Z_1, <- Qc_of_Z_plus. apply Qc_of_Z_nonzero. lia. }
  by field.
Qed.

(** Once [mu] is the mean of [n] samples of sum [S], further samples keep
    it the mean of all samples seen. *)
Lemma updateMeans_from (xs : list Mat3f) : ∀ (S : Mat3f) (n : Z),
  (h * w ≠ 0)%nat → (1 ≤ n)%Z → Cv.hasSize h w S → Forall (Cv.hasSize h w) xs →
  updateMeans xs (mkFaceJittererMean (MatOp.scale (dec 1 1 / Qc_of_Z n) S) n)
  = Done (mkFaceJittererMean
            (MatOp.scale (dec 1 1 / Qc_of_Z (n + Z.of_nat (length xs)))
               (padd S (matSum h w xs)))
            (n + Z.of_nat (length xs))).
Proof.
  induction xs as [|x xs IH]; intros S n Hhw Hn HS Hxs.
  - simpl. rewrite Z.add_0_r. by rewrite mat_zero_r.
  - apply Forall_cons in Hxs as [Hx Hxs].
    cbn [updateMeans]. unfold updateMean, cumulativeMovingAverage. cbn [mu count].
    rewrite (empty_sized _ (scale_sized _ _ HS)).
    destruct (Nat.eqb_spec (h * w) 0) as [|_]; [done|].
    rewrite (sub_sized _ _ Hx (scale_sized _ _ HS)).
    rewrite (add_sized _ _ (scale_sized _ _ HS)
               (scale_sized _ _ (psub_sized _ _ Hx (scale_sized _ _ HS)))).
    rewrite (mat_cma _ _ _ _ (cma_weights n Hn) HS Hx).
    rewrite (IH (padd S x) (n + 1)%Z Hhw ltac:(lia) (padd_sized _ _ HS Hx) Hxs).
    cbn [matSum foldr length]. fold (matSum h w xs).
    rewrite (mat_assoc _ _ _ HS Hx (matSum_sized _ Hxs)).
    by replace (n + 1 + Z.of_nat (length xs))%Z
      with (n + Z.of_nat (Datatypes.S (length xs)))%Z by lia.
Qed.

(** Samples without elements leave [mu] without elements. *)
Lemma updateMeans_no_element (xs : list Mat3f) : ∀ (n : Z),
  (h * w = 0)%nat → Forall (Cv.hasSize h w) xs →
  updateMeans xs (mkFaceJittererMean (zeros h w) n)
  = Done (mkFaceJittererMean (zeros h w) (n + Z.of_nat (length xs))).
Proof.
  induction xs as [|x xs IH]; intros n Hhw Hxs.
  - simpl. by rewrite Z.add_0_r.
  - apply Forall_cons in Hxs as [Hx Hxs].
    cbn [updateMeans]. unfold updateMean, cumulativeMovingAverage. cbn [mu count].
    rewrite (empty_sized _ zeros_sized), Hhw. cbn [Nat.eqb].
    rewrite (sized_no_element x Hhw Hx), (IH _ Hhw Hxs).
    by replace (n + 1 + Z.of_nat (length xs))%Z
      with (n + Z.of_nat (length (zeros h w :: xs)))%Z by (simpl; lia).
Qed.

Lemma arithmeticMean_sized (xs : list Mat3f) :
  xs ≠ [] → Forall (Cv.hasSize h w) xs → Cv.hasSize h w (arithmeticMean xs).
Proof.
  intros Hne Hxs. destruct xs as [|x xs]; [done|]. unfold arithmeticMean.
  destruct (Forall_inv Hxs) as (-> & -> & _). by apply scale_sized, matSum_sized.
Qed.

(** A jitterer that has seen the samples [xs] holds
    their arithmetic mean and their number. *)
Lemma updateMeans_mean (xs : list Mat3f) :
  xs ≠ [] → Forall (Cv.hasSize h w) xs →
  updateMeans xs newFaceJittererMean
  = Done (mkFaceJittererMean (arithmeticMean xs) (Z.of_nat (length xs))).
Proof.
  intros Hne Hxs. destruct xs as [|x xs]; [done|].
  pose proof (arithmeticMean_sized _ Hne Hxs) as Hmean.
  apply Forall_cons in Hxs as [Hx Hxs].
  cbn [updateMeans]. unfold updateMean, cumulativeMovingAverage.
  cbn [newFaceJittererMean mu count Cv.empty Cv.nil Cv.rows Cv.cols Nat.mul Nat.eqb].
  destruct (decide (h * w = 0)%nat) as [Hhw|Hhw].
  - rewrite (sized_no_element _ Hhw Hmean), (sized_no_element x Hhw Hx).
    rewrite (updateMeans_no_element xs _ Hhw Hxs).
    by replace (0 + 1 + Z.of_nat (length xs))%Z
      with (Z.of_nat (length (zeros h w :: xs))) by (simpl; lia).
  - rewrite <- (mat_sc_1 x Hx) at 1.
    change 1 with (dec 1 1 / Qc_of_Z (0 + 1)) at 1.
    rewrite (updateMeans_from xs x (0 + 1)%Z Hhw ltac:(lia) Hx Hxs).
    unfold arithmeticMean. destruct Hx as (-> & -> & _).
    by replace (0 + 1 + Z.of_nat (length xs))%Z
      with (Z.of_nat (length (x :: xs))) by (simpl; lia).
Qed.

Lemma updateMeans_app (xs ys : list Mat3f) (j : FaceJittererMean) :
  updateMeans (xs ++ ys) j
  = match updateMeans xs j with
    | Done j' => updateMeans ys j'
    | Fault e => Fault e
    end.
Proof.
  revert j. induction xs as [|x xs IH]; intros j; simpl; [done|].
  by destruct (updateMean x j).
Qed.

(** One more sample: [cumulativeMovingAverage] takes the mean of the
    samples seen to the mean of the samples seen. *)
Lemma cumulativeMovingAverage_step (xs : list Mat3f) (x : Mat3f) :
  xs ≠ [] → Forall (Cv.hasSize h w) (xs ++ [x]) →
  cumulativeMovingAverage (arithmeticMean xs) x (Z.of_nat (length xs) + 1)
  = Done (arithmeticMean (xs ++ [x])).
Proof.
  intros Hne Hall. pose proof Hall as Hxs. apply Forall_app in Hxs as [Hxs _].
  assert (xs ++ [x] ≠ []) as Hne' by (by destruct xs).
  pose proof (updateMeans_mean _ Hne' Hall) as Hrun.
  rewrite updateMeans_app, (updateMeans_mean _ Hne Hxs) in Hrun.
  cbn [updateMeans] in Hrun. unfold updateMean in Hrun. cbn [mu count] in Hrun.
  destruct (cumulativeMovingAverage _ _ _); by simplify_eq.
Qed.

(** The state of a thread that has seen the samples [t]. *)
Abbreviation seen t := (mkFaceJittererMean (arithmeticMean t) (Z.of_nat (length t))).

Abbreviation samplesOf := (λ t : list Mat3f, t ≠ [] ∧ Forall (Cv.hasSize h w) t).

Lemma total_count (ts : list (list Mat3f)) (n : Z) :
  foldl (λ n j, (n + count j)%Z) n ((λ t, seen t) <$> ts)
  = (n + Z.of_nat (length (concat ts)))%Z.
Proof.
  revert n. induction ts as [|t ts IH]; intros n; csimpl; [lia|].
  rewrite IH, length_app. lia.
Qed.

Lemma concat_sized (ts : list (list Mat3f)) :
  Forall samplesOf ts → Forall (Cv.hasSize h w) (concat ts).
Proof. induction 1 as [|t ts [_ Ht] _ IH]; csimpl; [done | by apply Forall_app]. Qed.

(** The term that a thread adds to the mean of all: its share of the sum. *)
Lemma weighted_mean (t : list Mat3f) (N : Z) :
  N ≠ 0%Z → samplesOf t →
  MatOp.scale (Qc_of_Z (Z.of_nat (length t)) / Qc_of_Z N) (arithmeticMean t)
  = MatOp.scale (dec 1 1 / Qc_of_Z N) (matSum h w t).
Proof.
  intros HN [Hne Ht]. destruct t as [|x t]; [done|]. unfold arithmeticMean.
  destruct (Forall_inv Ht) as (-> & -> & _).
  rewrite (mat_sc_sc _ _ _ (matSum_sized _ Ht)). f_equal.
  change (dec 1 1) with 1.
  assert (Qc_of_Z N ≠ 0) by by apply Qc_of_Z_nonzero.
  assert (Qc_of_Z (Z.of_nat (length (x :: t))) ≠ 0)
    by (apply Qc_of_Z_nonzero; simpl; lia).
  by field.
Qed.

Lemma meanLoop_from (ts : list (list Mat3f)) : ∀ (S : Mat3f) (N : Z),
  (h * w ≠ 0)%nat → N ≠ 0%Z → Cv.hasSize h w S → Forall samplesOf ts →
  meanLoop N ((λ t, seen t) <$> ts) (MatOp.scale (dec 1 1 / Qc_of_Z N) S)
  = Done (MatOp.scale (dec 1 1 / Qc_of_Z N) (padd S (matSum h w (concat ts)))).
Proof.
  induction ts as [|t ts IH]; intros S N Hhw HN HS Hts; csimpl.
  - by rewrite mat_zero_r.
  - apply Forall_cons in Hts as [Ht Hts]. cbn [mu count].
    rewrite (weighted_mean t N HN Ht).
    rewrite (empty_sized _ (scale_sized _ _ HS)).
    destruct (Nat.eqb_spec (h * w) 0) as [|_]; [done|].
    destruct Ht as [_ Ht].
    rewrite (add_sized _ _ (scale_sized _ _ HS) (scale_sized _ _ (matSum_sized _ Ht))).
    rewrite (mat_distr _ _ _ HS (matSum_sized _ Ht)).
    rewrite (IH _ N Hhw HN (padd_sized _ _ HS (matSum_sized _ Ht)) Hts).
    rewrite (matSum_app _ _ Ht (concat_sized _ Hts)).
    by rewrite (mat_assoc _ _ _ HS (matSum_sized _ Ht)
                  (matSum_sized _ (concat_sized _ Hts))).
Qed.

Lemma meanLoop_no_element (ts : list (list Mat3f)) (N : Z) (acc : Mat3f) :
  (h * w = 0)%nat → Forall samplesOf ts → Cv.empty acc = true →
  meanLoop N ((λ t, seen t) <$> ts) acc
  = Done (match ts with [] => acc | _ :: _ => zeros h w end).
Proof.
  intros Hhw Hts. revert acc.
  induction Hts as [|t ts [Hne Ht] Hts IH]; intros acc Hacc; csimpl; [done|].
  rewrite Hacc. cbn [mu count].
  rewrite (sized_no_element _ Hhw (scale_sized _ _ (arithmeticMean_sized _ Hne Ht))).
  rewrite IH; [by destruct ts|].
  by rewrite (empty_sized _ zeros_sized), Hhw.
Qed.

(** The count-weighted combination of the means
    of the threads is the arithmetic mean of all their samples. *)
Lemma computeMeanFace_mean (ts : list (list Mat3f)) :
  Forall samplesOf ts →
  computeMeanFace ((λ t, seen t) <$> ts) = Done (arithmeticMean (concat ts)).
Proof.
  intros Hts. unfold computeMeanFace. rewrite total_count, Z.add_0_l.
  destruct ts as [|t ts]; [done|].
  pose proof (concat_sized _ Hts) as Hall.
  assert (concat (t :: ts) ≠ []) as Hne.
  { apply Forall_inv in Hts as [Ht _]. csimpl. by destruct t. }
  destruct (decide (h * w = 0)%nat) as [Hhw|Hhw].
  - rewrite (meanLoop_no_element _ _ _ Hhw Hts) by done.
    by rewrite (sized_no_element _ Hhw (arithmeticMean_sized _ Hne Hall)).
  - assert (Z.of_nat (length (concat (t :: ts))) ≠ 0%Z) as HN
      by (destruct (concat (t :: ts)); [done | simpl; lia]).
    apply Forall_cons in Hts as [Ht Hts]. csimpl.
    cbn [Cv.empty Cv.nil Cv.rows Cv.cols Nat.mul Nat.eqb mu count].
    change (length (t ++ concat ts)) with (length (concat (t :: ts))).
    rewrite (weighted_mean t _ HN Ht). destruct Ht as [Htne Ht].
    rewrite (meanLoop_from ts _ _ Hhw HN (matSum_sized _ Ht) Hts).
    rewrite <- (matSum_app _ _ Ht (concat_sized _ Hts)).
    unfold arithmeticMean. csimpl.
    destruct t as [|x t]; [done|]. csimpl.
    by destruct (Forall_inv Ht) as (-> & -> & _).
Qed.

(** The jitterers that the threads leave are determined by their
    samples. *)
Lemma runs_seen (ts : list (list Mat3f)) (js : list FaceJittererMean) :
  Forall samplesOf ts →
  Forall2 (λ t j, updateMeans t newFaceJittererMean = Done j) ts js →
  js = (λ t, seen t) <$> ts.
Proof.
  intros Hts Hrun. induction Hrun as [|t j ts js Hj _ IH]; [done|].
  apply Forall_cons in Hts as [[Hne Ht] Hts]. csimpl.
  rewrite (updateMeans_mean t Hne Ht) in Hj. injection Hj as <-.
  by rewrite <- IH.
Qed.

Lemma meanLoop_app (N : Z) (js ks : list FaceJittererMean) : ∀ acc,
  meanLoop N (js ++ ks) acc
  = match meanLoop N js acc with
    | Done acc' => meanLoop N ks acc'
    | Fault e => Fault e
    end.
Proof.
  induction js as [|j js IH]; intros acc; cbn [meanLoop app]; [done|].
  destruct (Cv.empty acc); [apply IH|].
  destruct (MatOp.add acc _); [apply IH | done].
Qed.

(** The loop over threads that have all seen samples, from the empty
    accumulator: the sum of their samples over [N]. *)
Lemma meanLoop_busy (t : list Mat3f) (ts : list (list Mat3f)) (N : Z) :
  (h * w ≠ 0)%nat → N ≠ 0%Z → Forall samplesOf (t :: ts) →
  meanLoop N ((λ t, seen t) <$> t :: ts) Cv.nil
  = Done (MatOp.scale (dec 1 1 / Qc_of_Z N) (matSum h w (concat (t :: ts)))).
Proof.
  intros Hhw HN Hts. apply Forall_cons in Hts as [Ht Hts]. csimpl.
  cbn [Cv.empty Cv.nil Cv.rows Cv.cols Nat.mul Nat.eqb mu count].
  rewrite (weighted_mean t _ HN Ht). destruct Ht as [Htne Ht].
  rewrite (meanLoop_from ts _ _ Hhw HN (matSum_sized _ Ht) Hts).
  by rewrite <- (matSum_app _ _ Ht (concat_sized _ Hts)).
Qed.

(** The term of a jitterer that has seen no sample has no element: once
    the accumulator holds elements, OpenCV refuses the sum. *)
Lemma meanLoop_idle (N : Z) (acc : Mat3f) (ks : list FaceJittererMean) :
  (h * w ≠ 0)%nat → Cv.hasSize h w acc →
  meanLoop N (newFaceJittererMean :: ks) acc = Fault CvError.
Proof.
  intros Hhw Hacc. cbn [meanLoop]. rewrite (empty_sized _ Hacc).
  destruct (Nat.eqb_spec (h * w) 0) as [|_]; [done|].
  unfold MatOp.add. rewrite decide_False; [done|].
  intros [Hrows _]. destruct Hacc as (Hr & _). rewrite Hr in Hrows.
  change (h = 0%nat) in Hrows. apply Hhw. by rewrite Hrows.
Qed.
End Sized.

(** A thread that has seen no sample, after one that has: the sizes of
    the two matrices differ and OpenCV refuses the sum. *)
Example computeMeanFace_idle_thread :
  computeMeanFace [mkFaceJittererMean Sample.face1 1; newFaceJittererMean]
  = Fault CvError.
Proof. reflexivity. Qed.

(** X18. Under exact arithmetic, for samples of one size [h] x [w]:
    [cumulativeMovingAverage] keeps [mu] the arithmetic mean of the
    samples seen so far (the first sample of a new jitterer is its own
    mean, and from the mean of the samples [xs] and one more sample [x]
    it computes the mean of [xs] followed by [x]), so that after every
    non-empty sequence of samples [mu] is their mean and [count] their
    number; and for threads that have each seen a non-empty sequence,
    [computeMeanFace], the sum over the threads of
    [(count_t / totalCount) * mu_t], is the arithmetic mean of the
    samples of all threads together. *)
Theorem running_mean_is_arithmetic_mean (h w : nat) :
  (∀ x, Cv.hasSize h w x →
     cumulativeMovingAverage (mu newFaceJittererMean) x 1 = Done (arithmeticMean [x]))
  ∧ (∀ xs x, xs ≠ [] → Forall (Cv.hasSize h w) (xs ++ [x]) →
     cumulativeMovingAverage (arithmeticMean xs) x (Z.of_nat (length xs) + 1)
     = Done (arithmeticMean (xs ++ [x])))
  ∧ (∀ xs, xs ≠ [] → Forall (Cv.hasSize h w) xs →
     updateMeans xs newFaceJittererMean
     = Done (mkFaceJittererMean (arithmeticMean xs) (Z.of_nat (length xs))))
  ∧ (∀ ts, Forall (λ t, t ≠ [] ∧ Forall (Cv.hasSize h w) t) ts →
     ∃ js, Forall2 (λ t j, updateMeans t newFaceJittererMean = Done j) ts js
           ∧ computeMeanFace js = Done (arithmeticMean (concat ts))).
Proof.
  split_and!.
  - intros x Hx.
    pose proof (updateMeans_mean h w [x] ltac:(done) ltac:(by constructor)) as Hrun.
    cbn [updateMeans] in Hrun. unfold updateMean in Hrun.
    change (count newFaceJittererMean + 1)%Z with 1%Z in Hrun.
    destruct (cumulativeMovingAverage _ _ _); by simplify_eq.
  - apply cumulativeMovingAverage_step.
  - apply updateMeans_mean.
  - intros ts Hts.
    exists ((λ t, mkFaceJittererMean (arithmeticMean t) (Z.of_nat (length t))) <$> ts).
    split; [|by apply (computeMeanFace_mean h w)].
    apply Forall2_fmap_r, Forall_Forall2_diag.
    eapply Forall_impl; [exact Hts|]. intros t [Hne Ht]. by apply (updateMeans_mean h w).
Qed.

Lemma running_mean_is_arithmetic_mean_witness :
  updateMeans [Sample.face1; Sample.face2] newFaceJittererMean
  = Done (mkFaceJittererMean (arithmeticMean [Sample.face1; Sample.face2]) 2)
  ∧ ∃ js, Forall2 (λ t j, updateMeans t newFaceJittererMean = Done j)
            [[Sample.face1; Sample.face2]; [Sample.face3]] js
          ∧ computeMeanFace js
            = Done (arithmeticMean [Sample.face1; Sample.face2; Sample.face3]).
Proof.
  destruct (running_mean_is_arithmetic_mean 1 3) as (_ & _ & Hrun & Hall).
  split.
  - apply (Hrun [Sample.face1; Sample.face2]); [done | repeat constructor].
  - apply (Hall [[Sample.face1; Sample.face2]; [Sample.face3]]).
    repeat constructor; done.
Defined.

(** C9. A thread that has seen no sample (the harness creates its
    jitterer before it looks at [repeat[i]] and at the image) breaks
    [computeMeanFace]: for samples of one size with elements, when its
    jitterer comes in the map after the jitterer of a thread that has
    seen samples, the sum [mu += (count_t / totalCount) * mu_t] is
    refused, whatever comes after it, although the samples of all
    threads together, and so their arithmetic mean, are those of the
    other threads; when it comes first in the map, the same call returns
    this mean. *)
Theorem computeMeanFace_idle_thread_fails (h w : nat) (ts1 ts2 : list (list Mat3f))
    (js1 js2 : list FaceJittererMean) :
  (h * w ≠ 0)%nat → ts1 ≠ [] →
  Forall (λ t, t ≠ [] ∧ Forall (Cv.hasSize h w) t) ts1 →
  Forall (λ t, t ≠ [] ∧ Forall (Cv.hasSize h w) t) ts2 →
  Forall2 (λ t j, updateMeans t newFaceJittererMean = Done j) ts1 js1 →
  Forall2 (λ t j, updateMeans t newFaceJittererMean = Done j) ts2 js2 →
  updateMeans [] newFaceJittererMean = Done newFaceJittererMean
  ∧ computeMeanFace (js1 ++ newFaceJittererMean :: js2) = Fault CvError
  ∧ computeMeanFace (newFaceJittererMean :: js1 ++ js2)
    = Done (arithmeticMean (concat ([] :: ts1 ++ ts2)))
  ∧ concat (ts1 ++ [] :: ts2) = concat ([] :: ts1 ++ ts2)
  ∧ concat ([] :: ts1 ++ ts2) ≠ [].
Proof.
  intros Hhw Hne Hts1 Hts2 Hrun1 Hrun2.
  rewrite (runs_seen h w ts1 js1 Hts1 Hrun1), (runs_seen h w ts2 js2 Hts2 Hrun2).
  assert (Forall (λ t, t ≠ [] ∧ Forall (Cv.hasSize h w) t) (ts1 ++ ts2)) as Hall
    by by apply Forall_app.
  assert (concat ts1 ≠ []) as Hsome.
  { destruct ts1 as [|t ts1]; [done|]. apply Forall_inv in Hts1 as [Ht _].
    csimpl. by destruct t. }
  split_and!.
  - done.
  - unfold computeMeanFace. rewrite foldl_app. cbn [foldl count newFaceJittererMean].
    rewrite !total_count, Z.add_0_l, Z.add_0_r.
    set (N := (Z.of_nat (length (concat ts1)) + Z.of_nat (length (concat ts2)))%Z).
    assert (N ≠ 0%Z) as HN.
    { subst N. destruct (concat ts1); [done | simpl; lia]. }
    rewrite meanLoop_app. destruct ts1 as [|t ts1]; [done|].
    rewrite (meanLoop_busy h w t ts1 N Hhw HN Hts1).
    apply (meanLoop_idle h w); [done|].
    apply scale_sized, matSum_sized. by apply (concat_sized h w).
  - rewrite <- fmap_app.
    change (computeMeanFace (newFaceJittererMean :: ?js)) with (computeMeanFace js).
    change (concat ([] :: ts1 ++ ts2)) with (concat (ts1 ++ ts2)).
    by apply (computeMeanFace_mean h w).
  - change (concat ([] :: ts1 ++ ts2)) with (concat (ts1 ++ ts2)).
    by rewrite !concat_app.
  - change (concat ([] :: ts1 ++ ts2)) with (concat (ts1 ++ ts2)).
    rewrite concat_app. by destruct (concat ts1).
Qed.

Lemma computeMeanFace_idle_thread_fails_witness :
  computeMeanFace ([mkFaceJittererMean Sample.face1 1] ++ newFaceJittererMean :: [])
  = Fault CvError
  ∧ computeMeanFace (newFaceJittererMean :: [mkFaceJittererMean Sample.face1 1] ++ [])
    = Done (arithmeticMean (concat ([] :: [[Sample.face1]] ++ []))).
Proof.
  destruct (computeMeanFace_idle_thread_fails 1 3 [[Sample.face1]] []
              [mkFaceJittererMean Sample.face1 1] [])
    as (_ & Hlast & Hfirst & _).
  - done.
  - done.
  - repeat constructor; done.
  - constructor.
  - repeat constructor.
  - constructor.
  - split; [exact Hlast | exact Hfirst].
Defined.
End MeanFacts.

(** ** Merging options *)

Section FieldFacts.
Context {T : Type}.
Implicit Types (b o x : Field T).

Lemma mergeLeaf_self x : mergeLeaf x x = x.
Proof. unfold mergeLeaf. by destruct (fvalue x). Qed.

Lemma mergeLeaf_idem b o : mergeLeaf (mergeLeaf b o) o = mergeLeaf b o.
Proof. unfold mergeLeaf. by destruct (fvalue o) eqn:E; rewrite ?E. Qed.

Lemma mergeLeaf_unset b o : isSet o = false → mergeLeaf b o = b.
Proof. unfold isSet, mergeLeaf. by destruct (fvalue o). Qed.

Lemma leafView_merge (inj : T → Value) b o (path : list string) :
  vget (leafView inj (mergeLeaf b o)) path
  = match vget (leafView inj o) path with
    | Some v => Some v
    | None => vget (leafView inj b) path
    end.
Proof.
  unfold mergeLeaf. destruct path; [|done]. simpl.
  by destruct (fvalue o) eqn:E; rewrite ?E.
Qed.

Context (merge : T → T → Z → T) (mode : Z).

Lemma mergeGroup_self x :
  (∀ g, merge g g mode = g) → mergeGroup merge x x mode = x.
Proof.
  intros Hself. destruct x as [n [g|]]; unfold mergeGroup; simpl; [|done].
  by rewrite Hself.
Qed.

Lemma mergeGroup_idem b o :
  (∀ g g', merge (merge g g' mode) g' mode = merge g g' mode) →
  (∀ g, merge g g mode = g) →
  mergeGroup merge (mergeGroup merge b o mode) o mode = mergeGroup merge b o mode.
Proof.
  intros Hidem Hself. destruct b as [nb [gb|]], o as [no [go|]]; unfold mergeGroup; simpl;
    by rewrite ?Hidem, ?Hself.
Qed.

Lemma mergeGroup_unset b o : isSet o = false → mergeGroup merge b o mode = b.
Proof. unfold isSet, mergeGroup. by destruct (fvalue o). Qed.

Lemma groupView_merge (read : T → list string → option Value) b o (path : list string) :
  (∀ g g' p, read (merge g g' mode) p
             = match read g' p with Some v => Some v | None => read g p end) →
  vget (groupView read (mergeGroup merge b o mode)) path
  = match vget (groupView read o) path with
    | Some v => Some v
    | None => vget (groupView read b) path
    end.
Proof.
  intros Hread. destruct b as [nb [gb|]], o as [no [go|]]; unfold mergeGroup; simpl;
    rewrite ?Hread; try done; by destruct (read go path).
Qed.
End FieldFacts.

(** [Options::Nms] *)

Lemma Nms_merge_self (mode : Z) (x : Options.Nms.t) : Options.Nms.merge x x mode = x.
Proof.
  destruct x. unfold Options.Nms.merge. cbn.
  f_equal; first [apply mergeLeaf_self].
Qed.

Lemma Nms_merge_idem (mode : Z) (b o : Options.Nms.t) :
  Options.Nms.merge (Options.Nms.merge b o mode) o mode = Options.Nms.merge b o mode.
Proof.
  destruct b, o. unfold Options.Nms.merge. cbn.
  f_equal; first [apply mergeLeaf_idem].
Qed.

Lemma Nms_read_merge (mode : Z) (b o : Options.Nms.t) (path : list string) :
  Options.Nms.read (Options.Nms.merge b o mode) path
  = match Options.Nms.read o path with Some v => Some v | None => Options.Nms.read b path end.
Proof.
  destruct path as [|n path]; [done|]. destruct b, o.
  unfold Options.Nms.read, readIn, Options.Nms.fields, Options.Nms.merge. cbn [findField].
  repeat (destruct (String.eqb n _); [cbn; first [apply leafView_merge]|]).
  done.
Qed.

Lemma Nms_merge_unset (mode : Z) (b o : Options.Nms.t) :
  Options.Nms.anySet o = false → Options.Nms.merge b o mode = b.
Proof.
  destruct b, o. unfold Options.Nms.anySet, Options.Nms.fields, Options.Nms.merge. cbn. intros Hunset.
  repeat (apply orb_false_elim in Hunset as [? Hunset]).
  f_equal; first [by apply mergeLeaf_unset | by apply mergeGroup_unset].
Qed.

(** [Options::Pyramid::Chns::Color] *)

Lemma Color_merge_self (mode : Z) (x : Options.Pyramid.Chns.Color.t) : Options.Pyramid.Chns.Color.merge x x mode = x.
Proof.
  destruct x. unfold Options.Pyramid.Chns.Color.merge. cbn.
  f_equal; first [apply mergeLeaf_self].
Qed.

Lemma Color_merge_idem (mode : Z) (b o : Options.Pyramid.Chns.Color.t) :
  Options.Pyramid.Chns.Color.merge (Options.Pyramid.Chns.Color.merge b o mode) o mode = Options.Pyramid.Chns.Color.merge b o mode.
Proof.
  destruct b, o. unfold Options.Pyramid.Chns.Color.merge. cbn.
  f_equal; first [apply mergeLeaf_idem].
Qed.

Lemma Color_read_merge (mode : Z) (b o : Options.Pyramid.Chns.Color.t) (path : list string) :
  Options.Pyramid.Chns.Color.read (Options.Pyramid.Chns.Color.merge b o mode) path
  = match Options.Pyramid.Chns.Color.read o path with Some v => Some v | None => Options.Pyramid.Chns.Color.read b path end.
Proof.
  destruct path as [|n path]; [done|]. destruct b, o.
  unfold Options.Pyramid.Chns.Color.read, readIn, Options.Pyramid.Chns.Color.fields, Options.Pyramid.Chns.Color.merge. cbn [findField].
  repeat (destruct (String.eqb n _); [cbn; first [apply leafView_merge]|]).
  done.
Qed.

Lemma Color_merge_unset (mode : Z) (b o : Options.Pyramid.Chns.Color.t) :
  Options.Pyramid.Chns.Color.anySet o = false → Options.Pyramid.Chns.Color.merge b o mode = b.
Proof.
  destruct b, o. unfold Options.Pyramid.Chns.Color.anySet, Options.Pyramid.Chns.Color.fields, Options.Pyramid.Chns.Color.merge. cbn. intros Hunset.
  repeat (apply orb_false_elim in Hunset as [? Hunset]).
  f_equal; first [by apply mergeLeaf_unset | by apply mergeGroup_unset].
Qed.

(** [Options::Pyramid::Chns::GradMag] *)

Lemma GradMag_merge_self (mode : Z) (x : Options.Pyramid.Chns.GradMag.t) : Options.Pyramid.Chns.GradMag.merge x x mode = x.
Proof.
  destruct x. unfold Options.Pyramid.Chns.GradMag.merge. cbn.
  f_equal; first [apply mergeLeaf_self].
Qed.

Lemma GradMag_merge_idem (mode : Z) (b o : Options.Pyramid.Chns.GradMag.t) :
  Options.Pyramid.Chns.GradMag.merge (Options.Pyramid.Chns.GradMag.merge b o mode) o mode = Options.Pyramid.Chns.GradMag.merge b o mode.
Proof.
  destruct b, o. unfold Options.Pyramid.Chns.GradMag.merge. cbn.
  f_equal; first [apply mergeLeaf_idem].
Qed.

Lemma GradMag_read_merge (mode : Z) (b o : Options.Pyramid.Chns.GradMag.t) (path : list string) :
  Options.Pyramid.Chns.GradMag.read (Options.Pyramid.Chns.GradMag.merge b o mode) path
  = match Options.Pyramid.Chns.GradMag.read o path with Some v => Some v | None => Options.Pyramid.Chns.GradMag.read b path end.
Proof.
  destruct path as [|n path]; [done|]. destruct b, o.
  unfold Options.Pyramid.Chns.GradMag.read, readIn, Options.Pyramid.Chns.GradMag.fields, Options.Pyramid.Chns.GradMag.merge. cbn [findField].
  repeat (destruct (String.eqb n _); [cbn; first [apply leafView_merge]|]).
  done.
Qed.

Lemma GradMag_merge_unset (mode : Z) (b o : Options.Pyramid.Chns.GradMag.t) :
  Options.Pyramid.Chns.GradMag.anySet o = false → Options.Pyramid.Chns.GradMag.merge b o mode = b.
Proof.
  destruct b, o. unfold Options.Pyramid.Chns.GradMag.anySet, Options.Pyramid.Chns.GradMag.fields, Options.Pyramid.Chns.GradMag.merge. cbn. intros Hunset.
  repeat (apply orb_false_elim in Hunset as [? Hunset]).
  f_equal; first [by apply mergeLeaf_unset | by apply mergeGroup_unset].
Qed.

(** [Options::Pyramid::Chns::GradHist] *)

Lemma GradHist_merge_self (mode : Z) (x : Options.Pyramid.Chns.GradHist.t) : Options.Pyramid.Chns.GradHist.merge x x mode = x.
Proof.
  destruct x. unfold Options.Pyramid.Chns.GradHist.merge. cbn.
  f_equal; first [apply mergeLeaf_self].
Qed.

Lemma GradHist_merge_idem (mode : Z) (b o : Options.Pyramid.Chns.GradHist.t) :
  Options.Pyramid.Chns.GradHist.merge (Options.Pyramid.Chns.GradHist.merge b o mode) o mode = Options.Pyramid.Chns.GradHist.merge b o mode.
Proof.
  destruct b, o. unfold Options.Pyramid.Chns.GradHist.merge. cbn.
  f_equal; first [apply mergeLeaf_idem].
Qed.

Lemma GradHist_read_merge (mode : Z) (b o : Options.Pyramid.Chns.GradHist.t) (path : list string) :
  Options.Pyramid.Chns.GradHist.read (Options.Pyramid.Chns.GradHist.merge b o mode) path
  = match Options.Pyramid.Chns.GradHist.read o path with Some v => Some v | None => Options.Pyramid.Chns.GradHist.read b path end.
Proof.
  destruct path as [|n path]; [done|]. destruct b, o.
  unfold Options.Pyramid.Chns.GradHist.read, readIn, Options.Pyramid.Chns.GradHist.fields, Options.Pyramid.Chns.GradHist.merge. cbn [findField].
  repeat (destruct (String.eqb n _); [cbn; first [apply leafView_merge]|]).
  done.
Qed.

Lemma GradHist_merge_unset (mode : Z) (b o : Options.Pyramid.Chns.GradHist.t) :
  Options.Pyramid.Chns.GradHist.anySet o = false → Options.Pyramid.Chns.GradHist.merge b o mode = b.
Proof.
  destruct b, o. unfold Options.Pyramid.Chns.GradHist.anySet, Options.Pyramid.Chns.GradHist.fields, Options.Pyramid.Chns.GradHist.merge. cbn. intros Hunset.
  repeat (apply orb_false_elim in Hunset as [? Hunset]).
  f_equal; first [by apply mergeLeaf_unset | by apply mergeGroup_unset].
Qed.

(** [Options::Pyramid::Chns::Custom] *)

Lemma Custom_merge_self (mode : Z) (x : Options.Pyramid.Chns.Custom.t) : Options.Pyramid.Chns.Custom.merge x x mode = x.
Proof. by destruct x. Qed.

Lemma Custom_merge_idem (mode : Z) (b o : Options.Pyramid.Chns.Custom.t) :
  Options.Pyramid.Chns.Custom.merge (Options.Pyramid.Chns.Custom.merge b o mode) o mode = Options.Pyramid.Chns.Custom.merge b o mode.
Proof. done. Qed.

Lemma Custom_read_merge (mode : Z) (b o : Options.Pyramid.Chns.Custom.t) (path : list string) :
  Options.Pyramid.Chns.Custom.read (Options.Pyramid.Chns.Custom.merge b o mode) path
  = match Options.Pyramid.Chns.Custom.read o path with Some v => Some v | None => Options.Pyramid.Chns.Custom.read b path end.
Proof. by destruct path. Qed.

Lemma Custom_merge_unset (mode : Z) (b o : Options.Pyramid.Chns.Custom.t) :
  Options.Pyramid.Chns.Custom.anySet o = false → Options.Pyramid.Chns.Custom.merge b o mode = b.
Proof. by destruct b. Qed.

(** [Options::Pyramid::Chns] *)

Lemma Chns_merge_self (mode : Z) (x : Options.Pyramid.Chns.t) : Options.Pyramid.Chns.merge x x mode = x.
Proof.
  destruct x. unfold Options.Pyramid.Chns.merge. cbn.
  f_equal; first [apply mergeLeaf_self | apply mergeGroup_self, Color_merge_self | apply mergeGroup_self, Custom_merge_self | apply mergeGroup_self, GradHist_merge_self | apply mergeGroup_self, GradMag_merge_self].
Qed.

Lemma Chns_merge_idem (mode : Z) (b o : Options.Pyramid.Chns.t) :
  Options.Pyramid.Chns.merge (Options.Pyramid.Chns.merge b o mode) o mode = Options.Pyramid.Chns.merge b o mode.
Proof.
  destruct b, o. unfold Options.Pyramid.Chns.merge. cbn.
  f_equal; first [apply mergeLeaf_idem | apply mergeGroup_idem; [apply Color_merge_idem | apply Color_merge_self] | apply mergeGroup_idem; [apply Custom_merge_idem | apply Custom_merge_self] | apply mergeGroup_idem; [apply GradHist_merge_idem | apply GradHist_merge_self] | apply mergeGroup_idem; [apply GradMag_merge_idem | apply GradMag_merge_self]].
Qed.

Lemma Chns_read_merge (mode : Z) (b o : Options.Pyramid.Chns.t) (path : list string) :
  Options.Pyramid.Chns.read (Options.Pyramid.Chns.merge b o mode) path
  = match Options.Pyramid.Chns.read o path with Some v => Some v | None => Options.Pyramid.Chns.read b path end.
Proof.
  destruct path as [|n path]; [done|]. destruct b, o.
  unfold Options.Pyramid.Chns.read, readIn, Options.Pyramid.Chns.fields, Options.Pyramid.Chns.merge. cbn [findField].
  repeat (destruct (String.eqb n _); [cbn; first [apply leafView_merge | apply groupView_merge, Color_read_merge | apply groupView_merge, Custom_read_merge | apply groupView_merge, GradHist_read_merge | apply groupView_merge, GradMag_read_merge]|]).
  done.
Qed.

Lemma Chns_merge_unset (mode : Z) (b o : Options.Pyramid.Chns.t) :
  Options.Pyramid.Chns.anySet o = false → Options.Pyramid.Chns.merge b o mode = b.
Proof.
  destruct b, o. unfold Options.Pyramid.Chns.anySet, Options.Pyramid.Chns.fields, Options.Pyramid.Chns.merge. cbn. intros Hunset.
  repeat (apply orb_false_elim in Hunset as [? Hunset]).
  f_equal; first [by apply mergeLeaf_unset | by apply mergeGroup_unset].
Qed.

(** [Options::Pyramid] *)

Lemma Pyramid_merge_self (mode : Z) (x : Options.Pyramid.t) : Options.Pyramid.merge x x mode = x.
Proof.
  destruct x. unfold Options.Pyramid.merge. cbn.
  f_equal; first [apply mergeLeaf_self | apply mergeGroup_self, Chns_merge_self].
Qed.

Lemma Pyramid_merge_idem (mode : Z) (b o : Options.Pyramid.t) :
  Options.Pyramid.merge (Options.Pyramid.merge b o mode) o mode = Options.Pyramid.merge b o mode.
Proof.
  destruct b, o. unfold Options.Pyramid.merge. cbn.
  f_equal; first [apply mergeLeaf_idem | apply mergeGroup_idem; [apply Chns_merge_idem | apply Chns_merge_self]].
Qed.

Lemma Pyramid_read_merge (mode : Z) (b o : Options.Pyramid.t) (path : list string) :
  Options.Pyramid.read (Options.Pyramid.merge b o mode) path
  = match Options.Pyramid.read o path with Some v => Some v | None => Options.Pyramid.read b path end.
Proof.
  destruct path as [|n path]; [done|]. destruct b, o.
  unfold Options.Pyramid.read, readIn, Options.Pyramid.fields, Options.Pyramid.merge. cbn [findField].
  repeat (destruct (String.eqb n _); [cbn; first [apply leafView_merge | apply groupView_merge, Chns_read_merge]|]).
  done.
Qed.

Lemma Pyramid_merge_unset (mode : Z) (b o : Options.Pyramid.t) :
  Options.Pyramid.anySet o = false → Options.Pyramid.merge b o mode = b.
Proof.
  destruct b, o. unfold Options.Pyramid.anySet, Options.Pyramid.fields, Options.Pyramid.merge. cbn. intros Hunset.
  repeat (apply orb_false_elim in Hunset as [? Hunset]).
  f_equal; first [by apply mergeLeaf_unset | by apply mergeGroup_unset].
Qed.

(** [Options::Boost::Tree] *)

Lemma Tree_merge_self (mode : Z) (x : Options.Boost.Tree.t) : Options.Boost.Tree.merge x x mode = x.
Proof.
  destruct x. unfold Options.Boost.Tree.merge. cbn.
  f_equal; first [apply mergeLeaf_self].
Qed.

Lemma Tree_merge_idem (mode : Z) (b o : Options.Boost.Tree.t) :
  Options.Boost.Tree.merge (Options.Boost.Tree.merge b o mode) o mode = Options.Boost.Tree.merge b o mode.
Proof.
  destruct b, o. unfold Options.Boost.Tree.merge. cbn.
  f_equal; first [apply mergeLeaf_idem].
Qed.

Lemma Tree_read_merge (mode : Z) (b o : Options.Boost.Tree.t) (path : list string) :
  Options.Boost.Tree.read (Options.Boost.Tree.merge b o mode) path
  = match Options.Boost.Tree.read o path with Some v => Some v | None => Options.Boost.Tree.read b path end.
Proof.
  destruct path as [|n path]; [done|]. destruct b, o.
  unfold Options.Boost.Tree.read, readIn, Options.Boost.Tree.fields, Options.Boost.Tree.merge. cbn [findField].
  repeat (destruct (String.eqb n _); [cbn; first [apply leafView_merge]|]).
  done.
Qed.

Lemma Tree_merge_unset (mode : Z) (b o : Options.Boost.Tree.t) :
  Options.Boost.Tree.anySet o = false → Options.Boost.Tree.merge b o mode = b.
Proof.
  destruct b, o. unfold Options.Boost.Tree.anySet, Options.Boost.Tree.fields, Options.Boost.Tree.merge. cbn. intros Hunset.
  repeat (apply orb_false_elim in Hunset as [? Hunset]).
  f_equal; first [by apply mergeLeaf_unset | by apply mergeGroup_unset].
Qed.

(** [Options::Boost] *)

Lemma Boost_merge_self (mode : Z) (x : Options.Boost.t) : Options.Boost.merge x x mode = x.
Proof.
  destruct x. unfold Options.Boost.merge. cbn.
  f_equal; first [apply mergeLeaf_self | apply mergeGroup_self, Tree_merge_self].
Qed.

Lemma Boost_merge_idem (mode : Z) (b o : Options.Boost.t) :
  Options.Boost.merge (Options.Boost.merge b o mode) o mode = Options.Boost.merge b o mode.
Proof.
  destruct b, o. unfold Options.Boost.merge. cbn.
  f_equal; first [apply mergeLeaf_idem | apply mergeGroup_idem; [apply Tree_merge_idem | apply Tree_merge_self]].
Qed.

Lemma Boost_read_merge (mode : Z) (b o : Options.Boost.t) (path : list string) :
  Options.Boost.read (Options.Boost.merge b o mode) path
  = match Options.Boost.read o path with Some v => Some v | None => Options.Boost.read b path end.
Proof.
  destruct path as [|n path]; [done|]. destruct b, o.
  unfold Options.Boost.read, readIn, Options.Boost.fields, Options.Boost.merge. cbn [findField].
  repeat (destruct (String.eqb n _); [cbn; first [apply leafView_merge | apply groupView_merge, Tree_read_merge]|]).
  done.
Qed.

Lemma Boost_merge_unset (mode : Z) (b o : Options.Boost.t) :
  Options.Boost.anySet o = false → Options.Boost.merge b o mode = b.
Proof.
  destruct b, o. unfold Options.Boost.anySet, Options.Boost.fields, Options.Boost.merge. cbn. intros Hunset.
  repeat (apply orb_false_elim in Hunset as [? Hunset]).
  f_equal; first [by apply mergeLeaf_unset | by apply mergeGroup_unset].
Qed.

(** [Options::Jitter] *)

Lemma Jitter_merge_self (mode : Z) (x : Options.Jitter.t) : Options.Jitter.merge x x mode = x.
Proof.
  destruct x. unfold Options.Jitter.merge. cbn.
  f_equal; first [apply mergeLeaf_self].
Qed.

Lemma Jitter_merge_idem (mode : Z) (b o : Options.Jitter.t) :
  Options.Jitter.merge (Options.Jitter.merge b o mode) o mode = Options.Jitter.merge b o mode.
Proof.
  destruct b, o. unfold Options.Jitter.merge. cbn.
  f_equal; first [apply mergeLeaf_idem].
Qed.

Lemma Jitter_read_merge (mode : Z) (b o : Options.Jitter.t) (path : list string) :
  Options.Jitter.read (Options.Jitter.merge b o mode) path
  = match Options.Jitter.read o path with Some v => Some v | None => Options.Jitter.read b path end.
Proof.
  destruct path as [|n path]; [done|]. destruct b, o.
  unfold Options.Jitter.read, readIn, Options.Jitter.fields, Options.Jitter.merge. cbn [findField].
  repeat (destruct (String.eqb n _); [cbn; first [apply leafView_merge]|]).
  done.
Qed.

Lemma Jitter_merge_unset (mode : Z) (b o : Options.Jitter.t) :
  Options.Jitter.anySet o = false → Options.Jitter.merge b o mode = b.
Proof.
  destruct b, o. unfold Options.Jitter.anySet, Options.Jitter.fields, Options.Jitter.merge. cbn. intros Hunset.
  repeat (apply orb_false_elim in Hunset as [? Hunset]).
  f_equal; first [by apply mergeLeaf_unset | by apply mergeGroup_unset].
Qed.

(** [Options] *)

Lemma Options_merge_self (mode : Z) (x : Options.t) : Options.merge x x mode = x.
Proof.
  destruct x. unfold Options.merge. cbn.
  f_equal; first [apply mergeLeaf_self | apply mergeGroup_self, Boost_merge_self | apply mergeGroup_self, Jitter_merge_self | apply mergeGroup_self, Nms_merge_self | apply mergeGroup_self, Pyramid_merge_self].
Qed.

Lemma Options_merge_idem (mode : Z) (b o : Options.t) :
  Options.merge (Options.merge b o mode) o mode = Options.merge b o mode.
Proof.
  destruct b, o. unfold Options.merge. cbn.
  f_equal; first [apply mergeLeaf_idem | apply mergeGroup_idem; [apply Boost_merge_idem | apply Boost_merge_self] | apply mergeGroup_idem; [apply Jitter_merge_idem | apply Jitter_merge_self] | apply mergeGroup_idem; [apply Nms_merge_idem | apply Nms_merge_self] | apply mergeGroup_idem; [apply Pyramid_merge_idem | apply Pyramid_merge_self]].
Qed.

Lemma Options_read_merge (mode : Z) (b o : Options.t) (path : list string) :
  Options.read (Options.merge b o mode) path
  = match Options.read o path with Some v => Some v | None => Options.read b path end.
Proof.
  destruct path as [|n path]; [done|]. destruct b, o.
  unfold Options.read, readIn, Options.fields, Options.merge. cbn [findField].
  repeat (destruct (String.eqb n _); [cbn; first [apply leafView_merge | apply groupView_merge, Boost_read_merge | apply groupView_merge, Jitter_read_merge | apply groupView_merge, Nms_read_merge | apply groupView_merge, Pyramid_read_merge]|]).
  done.
Qed.

Lemma Options_merge_unset (mode : Z) (b o : Options.t) :
  Options.anySet o = false → Options.merge b o mode = b.
Proof.
  destruct b, o. unfold Options.anySet, Options.fields, Options.merge. cbn. intros Hunset.
  repeat (apply orb_false_elim in Hunset as [? Hunset]).
  f_equal; first [by apply mergeLeaf_unset | by apply mergeGroup_unset].
Qed.

(** The merge on a sample: the override replaces the overlap, the base
    keeps the suppression type and the stride. *)
Example merge_sample :
  Options.read (Options.merge Sample.baseOptions Sample.overrideOptions 0)
    ["pNms"; "overlap"]%string = Some (VDouble (dec 2 5))
  ∧ Options.read (Options.merge Sample.baseOptions Sample.overrideOptions 0)
    ["pNms"; "type"]%string = Some (VString "max")
  ∧ Options.read (Options.merge Sample.baseOptions Sample.overrideOptions 0)
    ["stride"]%string = Some (VInt 4)
  ∧ Options.read (Options.merge Sample.baseOptions Sample.overrideOptions 0)
    ["pNms"; "thr"]%string = None.
Proof. by split_and!. Qed.

(** C3. For every base and every override (of the whole options tree,
    and likewise of the channel options [Chns]): at every path of field
    names the merge holds the value that the override sets there and,
    where the override sets none, what the base has; merging the same
    override a second time changes nothing; and merging an override in
    which no field is set, such as a default-constructed one, returns
    the base. *)
Theorem merge_override_laws :
  (∀ (mode : Z) (base override : Options.t),
     (∀ path, Options.read (Options.merge base override mode) path
              = match Options.read override path with
                | Some v => Some v
                | None => Options.read base path
                end)
     ∧ Options.merge (Options.merge base override mode) override mode
       = Options.merge base override mode
     ∧ (Options.anySet override = false → Options.merge base override mode = base)
     ∧ Options.merge base Options.make mode = base)
  ∧ (∀ (mode : Z) (base override : Options.Pyramid.Chns.t),
     (∀ path, Options.Pyramid.Chns.read (Options.Pyramid.Chns.merge base override mode) path
              = match Options.Pyramid.Chns.read override path with
                | Some v => Some v
                | None => Options.Pyramid.Chns.read base path
                end)
     ∧ Options.Pyramid.Chns.merge (Options.Pyramid.Chns.merge base override mode) override mode
       = Options.Pyramid.Chns.merge base override mode
     ∧ (Options.Pyramid.Chns.anySet override = false
        → Options.Pyramid.Chns.merge base override mode = base)
     ∧ Options.Pyramid.Chns.merge base Options.Pyramid.Chns.make mode = base).
Proof.
  split; intros mode base override; split_and!.
  - apply Options_read_merge.
  - apply Options_merge_idem.
  - apply Options_merge_unset.
  - by apply Options_merge_unset.
  - apply Chns_read_merge.
  - apply Chns_merge_idem.
  - apply Chns_merge_unset.
  - by apply Chns_merge_unset.
Qed.

Lemma merge_override_laws_witness :
  Options.anySet Options.make = false
  ∧ Options.merge Sample.baseOptions Options.make 1 = Sample.baseOptions.
Proof.
  split; [reflexivity|].
  destruct merge_override_laws as [Hopts _].
  destruct (Hopts 1%Z Sample.baseOptions Options.make) as (_ & _ & Hunset & _).
  apply Hunset. reflexivity.
Defined.

(** ** Suppression by overlap *)

(** With the default parameters the second sample detection yields to the
    first; the candidates come out by descending score. *)
Example suppressMax_sample :
  BbNms.suppressMax Options.Nms.make [Sample.detC; Sample.detB; Sample.detA]
  = [Sample.detA; Sample.detC].
Proof. vm_compute. reflexivity. Qed.

Example suppressMaxg_sample :
  BbNms.suppressMaxg Options.Nms.make [Sample.detC; Sample.detB; Sample.detA]
  = [Sample.detA; Sample.detC].
Proof. vm_compute. reflexivity. Qed.

Section BbNmsFacts.
Local Open Scope Qc_scope.
Context (pNms : Options.Nms.t).
Implicit Types (d e : Detection) (l seen kept : list Detection).

(** Descending order of score. *)
Abbreviation desc := (λ d e : Detection, score e ≤ score d).

Lemma compare_not_Lt (p q : Qc) : (p ?= q) ≠ Lt → q ≤ p.
Proof. intros H. apply Qcnot_lt_le. by rewrite Qclt_alt. Qed.

Lemma insertDesc_Forall (P : Detection → Prop) d l :
  P d → Forall P l → Forall P (BbNms.insertDesc d l).
Proof.
  intros Hd Hl. induction Hl as [|e l He Hl IH]; simpl; [by repeat constructor|].
  destruct (score d ?= score e); repeat constructor; done.
Qed.

Lemma insertDesc_sorted d l :
  StronglySorted desc l → StronglySorted desc (BbNms.insertDesc d l).
Proof.
  induction 1 as [|e l Hl IH He]; simpl; [by repeat constructor|].
  destruct (score d ?= score e) eqn:E.
  - assert (score e ≤ score d) as Hed by (apply compare_not_Lt; congruence).
    constructor; [by constructor|]. constructor; [done|].
    eapply Forall_impl; [exact He|]. intros x Hx. simpl in *.
    by eapply Qcle_trans.
  - constructor; [done|]. apply insertDesc_Forall; [|done].
    simpl. by apply Qclt_le_weak, Qclt_alt.
  - assert (score e ≤ score d) as Hed by (apply compare_not_Lt; congruence).
    constructor; [by constructor|]. constructor; [done|].
    eapply Forall_impl; [exact He|]. intros x Hx. simpl in *.
    by eapply Qcle_trans.
Qed.

Lemma sortDesc_sorted l : StronglySorted desc (BbNms.sortDesc l).
Proof. induction l; simpl; [constructor | by apply insertDesc_sorted]. Qed.

Lemma sortDesc_Forall (P : Detection → Prop) l :
  Forall P l → Forall P (BbNms.sortDesc l).
Proof. induction 1; simpl; [done | by apply insertDesc_Forall]. Qed.

(** Ordering an ordered list changes nothing. *)
Lemma sortDesc_id l : StronglySorted desc l → BbNms.sortDesc l = l.
Proof.
  induction 1 as [|d l Hl IH Hd]; simpl; [done|]. rewrite IH.
  destruct Hd as [|e l He _]; simpl; [done|].
  destruct (score d ?= score e) eqn:E; try done.
  apply Qclt_alt in E. by apply Qcle_not_lt in He.
Qed.

Lemma filter_id (f : Detection → bool) l :
  Forall (λ d, f d = true) l → List.filter f l = l.
Proof. induction 1 as [|d l Hd _ IH]; simpl; [done|]. by rewrite Hd, IH. Qed.

Lemma filter_Forall (f : Detection → bool) l :
  Forall (λ d, f d = true) (List.filter f l).
Proof.
  induction l as [|d l IH]; simpl; [done|].
  destruct (f d) eqn:E; [by constructor | done].
Qed.

Lemma existsb_subseteq (f : Detection → bool) l1 l2 :
  l1 ⊆ l2 → existsb f l2 = false → existsb f l1 = false.
Proof.
  intros Hsub H2. apply not_true_is_false. intros H1.
  apply existsb_exists in H1 as (x & Hx & Hfx).
  assert (existsb f l2 = true); [|congruence].
  apply existsb_exists. exists x. split; [|done].
  by apply list_elem_of_In, Hsub, list_elem_of_In.
Qed.

Lemma subseteq_snoc_r l1 l2 d : l1 ⊆ l2 → l1 ⊆ l2 ++ [d].
Proof. intros Hsub x Hx. apply elem_of_app. left. by apply Hsub. Qed.

Lemma subseteq_snoc l1 l2 d : l1 ⊆ l2 → l1 ++ [d] ⊆ l2 ++ [d].
Proof.
  intros Hsub x Hx. apply elem_of_app in Hx as [Hx|Hx]; apply elem_of_app;
    [left; by apply Hsub | by right].
Qed.

(** *** The mode [max] *)

Lemma nmsMax_Forall (P : Detection → Prop) l : ∀ seen,
  Forall P l → Forall P (BbNms.nmsMax pNms seen l).
Proof.
  induction l as [|d l IH]; intros seen Hl; simpl; [done|].
  apply Forall_cons in Hl as [Hd Hl].
  destruct (existsb _ seen); [|constructor]; auto.
Qed.

Lemma nmsMax_sorted l : ∀ seen,
  StronglySorted desc l → StronglySorted desc (BbNms.nmsMax pNms seen l).
Proof.
  induction l as [|d l IH]; intros seen Hl; simpl; [done|].
  apply StronglySorted_inv in Hl as [Hl Hd].
  destruct (existsb _ seen); [by apply IH|].
  constructor; [by apply IH | by apply nmsMax_Forall].
Qed.

(** What the mode retains, it retains again: no candidate that it keeps
    overlaps too much with a candidate before it. *)
Lemma nmsMax_again l : ∀ seen seen',
  seen' ⊆ seen →
  BbNms.nmsMax pNms seen' (BbNms.nmsMax pNms seen l) = BbNms.nmsMax pNms seen l.
Proof.
  induction l as [|d l IH]; intros seen seen' Hsub; simpl; [done|].
  destruct (existsb _ seen) eqn:E.
  - by apply IH, subseteq_snoc_r.
  - simpl. rewrite (existsb_subseteq _ _ _ Hsub E). f_equal.
    by apply IH, subseteq_snoc.
Qed.

Lemma suppressMax_sorted (bbs : list Detection) :
  StronglySorted desc (BbNms.suppressMax pNms bbs).
Proof. apply nmsMax_sorted, sortDesc_sorted. Qed.

Lemma candidates_retained l seen :
  Forall (λ d, BbNms.aboveThr pNms d = true) l → StronglySorted desc l →
  BbNms.candidates pNms (BbNms.nmsMax pNms seen l) = BbNms.nmsMax pNms seen l.
Proof.
  intros Hthr Hsorted. unfold BbNms.candidates.
  rewrite filter_id by by apply nmsMax_Forall.
  by apply sortDesc_id, nmsMax_sorted.
Qed.

(** In the mode [max], suppressing what has been suppressed changes
    nothing. *)
Lemma suppressMax_idempotent (bbs : list Detection) :
  BbNms.suppressMax pNms (BbNms.suppressMax pNms bbs) = BbNms.suppressMax pNms bbs.
Proof.
  unfold BbNms.suppressMax. rewrite candidates_retained.
  - by apply nmsMax_again.
  - apply sortDesc_Forall, filter_Forall.
  - apply sortDesc_sorted.
Qed.

(** *** The mode [maxg] *)

Lemma nmsMaxg_Forall (P : Detection → Prop) l : ∀ kept,
  Forall P l → Forall P (BbNms.nmsMaxg pNms kept l).
Proof.
  induction l as [|d l IH]; intros kept Hl; simpl; [done|].
  apply Forall_cons in Hl as [Hd Hl].
  destruct (existsb _ kept); [|constructor]; auto.
Qed.

Lemma nmsMaxg_sorted l : ∀ kept,
  StronglySorted desc l → StronglySorted desc (BbNms.nmsMaxg pNms kept l).
Proof.
  induction l as [|d l IH]; intros kept Hl; simpl; [done|].
  apply StronglySorted_inv in Hl as [Hl Hd].
  destruct (existsb _ kept); [by apply IH|].
  constructor; [by apply IH | by apply nmsMaxg_Forall].
Qed.

Lemma nmsMaxg_again l : ∀ kept kept',
  kept' ⊆ kept →
  BbNms.nmsMaxg pNms kept' (BbNms.nmsMaxg pNms kept l) = BbNms.nmsMaxg pNms kept l.
Proof.
  induction l as [|d l IH]; intros kept kept' Hsub; simpl; [done|].
  destruct (existsb _ kept) eqn:E.
  - by apply IH.
  - simpl. rewrite (existsb_subseteq _ _ _ Hsub E). f_equal.
    by apply IH, subseteq_snoc.
Qed.

Lemma suppressMaxg_sorted (bbs : list Detection) :
  StronglySorted desc (BbNms.suppressMaxg pNms bbs).
Proof. apply nmsMaxg_sorted, sortDesc_sorted. Qed.

Lemma suppressMaxg_idempotent (bbs : list Detection) :
  BbNms.suppressMaxg pNms (BbNms.suppressMaxg pNms bbs) = BbNms.suppressMaxg pNms bbs.
Proof.
  unfold BbNms.suppressMaxg, BbNms.candidates.
  rewrite filter_id.
  - rewrite sortDesc_id by apply nmsMaxg_sorted, sortDesc_sorted.
    by apply nmsMaxg_again.
  - apply nmsMaxg_Forall, sortDesc_Forall, filter_Forall.
Qed.
End BbNmsFacts.

(** * Properties of the further code *)

(** ** The string hash *)

Section StringHashFacts.
Context (abi : Abi).
Local Open Scope Z_scope.

Lemma sizeBits_pos : 0 < 2 ^ StringHash.sizeBits abi.
Proof. unfold StringHash.sizeBits. by destruct (sizeWidth abi). Qed.

Lemma wrap_wrap_r (a b : Z) :
  StringHash.wrap abi (a + 33 * StringHash.wrap abi b) = StringHash.wrap abi (a + 33 * b).
Proof.
  unfold StringHash.wrap.
  rewrite <- Z.add_mod_idemp_r, Z.mul_mod_idemp_r, Z.add_mod_idemp_r;
    try done; pose proof sizeBits_pos; lia.
Qed.

Lemma hasher_wrapped (s : string) :
  StringHash.wrap abi (StringHash.hasher abi s) = StringHash.hasher abi s.
Proof.
  assert (StringHash.wrap abi 5381 = 5381) as H5381.
  { unfold StringHash.wrap, StringHash.sizeBits. by destruct (sizeWidth abi). }
  destruct s as [|c s]; simpl; [done|].
  destruct (Ascii.eqb c Ascii.zero); [done|].
  unfold StringHash.wrap. apply Z.mod_mod. pose proof sizeBits_pos. lia.
Qed.

(** X1. The hash of a string [s1] without terminator followed by [s2] is
    the hash of [s2], times 33 to the length of [s1], plus the characters
    of [s1] weighted by the powers of 33, in the arithmetic of
    [std::size_t]: the string after a prefix counts through its hash
    only. *)
Theorem hash_append (s1 s2 : string) :
  StringHash.noNul s1 = true →
  StringHash.hash abi (s1 +:+ s2)
  = StringHash.wrap abi (StringHash.weights abi s1
                         + 33 ^ Z.of_nat (String.length s1) * StringHash.hash abi s2).
Proof.
  unfold StringHash.hash. induction s1 as [|c s1 IH]; intros Hnul.
  - cbn [String.append StringHash.weights String.length].
    rewrite Z.pow_0_r, Z.mul_1_l, Z.add_0_l. symmetry. apply hasher_wrapped.
  - cbn [StringHash.noNul] in Hnul. apply andb_true_iff in Hnul as [Hc Hnul].
    apply negb_true_iff in Hc.
    change (String c s1 +:+ s2) with (String c (s1 +:+ s2)).
    cbn [StringHash.hasher StringHash.weights String.length].
    rewrite Hc, (IH Hnul), wrap_wrap_r. f_equal.
    rewrite Nat2Z.inj_succ, Z.pow_succ_r by lia. ring.
Qed.

(** X2. A [std::string] is hashed through [c_str()]: what follows a
    terminator inside the string does not count. *)
Theorem hash_stops_at_terminator (s1 s2 : string) :
  StringHash.hash abi (s1 +:+ String Ascii.zero s2) = StringHash.hash abi s1.
Proof.
  unfold StringHash.hash. induction s1 as [|c s1 IH]; simpl; [done|].
  by rewrite IH.
Qed.

(** X3. Two strings that differ in two neighbouring characters, the first
    higher by 33 and the second lower by 1, have one hash, so that a
    switch on this hash, as the one of [main], takes one for the
    other. *)
Theorem hash_collision (c c' d d' : ascii) (rest : string) :
  c ≠ Ascii.zero → c' ≠ Ascii.zero → d ≠ Ascii.zero → d' ≠ Ascii.zero →
  StringHash.toUnsignedInt abi c' = StringHash.toUnsignedInt abi c + 33 →
  StringHash.toUnsignedInt abi d = StringHash.toUnsignedInt abi d' + 1 →
  StringHash.hash abi (String c (String d rest))
  = StringHash.hash abi (String c' (String d' rest))
  ∧ formatSwitch (StringHash.hash abi) (String c (String d rest))
    = formatSwitch (StringHash.hash abi) (String c' (String d' rest)).
Proof.
  intros Hc Hc' Hd Hd' Hcc Hdd.
  assert (StringHash.hash abi (String c (String d rest))
          = StringHash.hash abi (String c' (String d' rest))) as Hhash.
  { unfold StringHash.hash. cbn [StringHash.hasher].
    apply Ascii.eqb_neq in Hc, Hc', Hd, Hd'. rewrite Hc, Hc', Hd, Hd'.
    rewrite !wrap_wrap_r, Hcc, Hdd. f_equal. ring. }
  split; [done|]. unfold formatSwitch. by rewrite Hhash.
Qed.
End StringHashFacts.

Lemma hash_append_witness :
  StringHash.hash (mkAbi true Bits64) ("tw" +:+ "o")
  = StringHash.wrap (mkAbi true Bits64)
      (StringHash.weights (mkAbi true Bits64) "tw"
       + 33 ^ Z.of_nat (String.length "tw") * StringHash.hash (mkAbi true Bits64) "o")%Z.
Proof. apply (hash_append (mkAbi true Bits64) "tw" "o"). reflexivity. Defined.

Lemma hash_collision_witness :
  StringHash.hash (mkAbi false Bits32) "Sxo" = StringHash.hash (mkAbi false Bits32) "two"
  ∧ formatSwitch (StringHash.hash (mkAbi false Bits32)) "Sxo"
    = formatSwitch (StringHash.hash (mkAbi false Bits32)) "two".
Proof.
  apply (hash_collision (mkAbi false Bits32) "S" "t" "x" "w" "o");
    first [discriminate | reflexivity].
Defined.

(** ** The format switch *)

(** The labels of the switch. *)
Abbreviation labels := ["two"; "drishti"; "lfw"; "muct"; "helen"; "bioid"; "lfpw"].

(** X4. Whatever the hash function, as long as the labels of the switch
    have different hashes (the program compiles): each label selects its
    format, and no string at all selects [FDDBFormat], though the help
    text lists [fddb] as supported.  With the hasher of ACF.h, on every
    platform, the labels have different hashes, each supported name but
    [fddb] selects its format, and [fddb] and the empty format end in
    the failed assertion. *)
Theorem formatSwitch_supported :
  (∀ hash : string → Z, NoDup (hash <$> labels) →
     formatSwitch hash <$> labels
     = [Done TWOFormat; Done DRISHTIFormat; Done LFWFormat; Done MUCTFormat;
        Done HELENFormat; Done BIOIDFormat; Done LFPWFormat])
  ∧ (∀ (hash : string → Z) sFormat, formatSwitch hash sFormat ≠ Done FDDBFormat)
  ∧ (∀ abi : Abi,
       NoDup (StringHash.hash abi <$> labels)
       ∧ formatSwitch (StringHash.hash abi) <$> splitComma SUPPORTED_FORMATS ""
         = [Done MUCTFormat; Fault CvError; Done HELENFormat; Done BIOIDFormat;
            Done LFWFormat; Done DRISHTIFormat; Done LFPWFormat; Done TWOFormat]
       ∧ splitComma SUPPORTED_FORMATS "" !! 1 = Some "fddb"
       ∧ formatSwitch (StringHash.hash abi) "" = Fault CvError).
Proof.
  split_and!.
  - intros hash Hnd. unfold formatSwitch. cbn [fmap list_fmap] in *.
    revert Hnd.
    generalize (hash "two") (hash "drishti") (hash "lfw") (hash "muct")
               (hash "helen") (hash "bioid") (hash "lfpw").
    intros z1 z2 z3 z4 z5 z6 z7 Hnd.
    repeat match goal with
           | H : NoDup (_ :: _) |- _ => apply NoDup_cons in H as [? H]
           end.
    repeat match goal with
           | H : _ ∉ _ :: _ |- _ => apply not_elem_of_cons in H as [? H]
           end.
    rewrite !Z.eqb_refl.
    repeat match goal with
           | H : ?a ≠ ?b |- _ =>
               rewrite (proj2 (Z.eqb_neq a b) H) ||
               rewrite (proj2 (Z.eqb_neq b a) (not_eq_sym H)) || clear H
           end.
    rewrite ?Z.eqb_refl. reflexivity.
  - intros hash sFormat. unfold formatSwitch.
    repeat (destruct (_ =? _)%Z; [discriminate|]). discriminate.
  - intros abi. split_and!.
    + destruct abi as [[] []]; apply (bool_decide_unpack _); vm_compute; exact I.
    + by destruct abi as [[] []]; vm_compute.
    + reflexivity.
    + by destruct abi as [[] []]; vm_compute.
Qed.

Lemma formatSwitch_supported_witness :
  formatSwitch (StringHash.hash (mkAbi true Bits64)) <$> labels
  = [Done TWOFormat; Done DRISHTIFormat; Done LFWFormat; Done MUCTFormat;
     Done HELENFormat; Done BIOIDFormat; Done LFPWFormat].
Proof.
  destruct formatSwitch_supported as (Hlabels & _ & Hhasher).
  apply Hlabels. apply (Hhasher (mkAbi true Bits64)).
Defined.

(** ** The default configurations *)

Lemma saveDefaultConfigs_cases (canOpen : string → bool) (sOutput : string) (out : Output) :
  let jitter := sOutput +:+ "/jitter.json" in
  let face := sOutput +:+ "/face.json" in
  let r := saveDefaultConfigs canOpen sOutput out in
  r.1 = (if canOpen jitter && canOpen face then 0 else 1)%Z
  ∧ written r.2
    = written out
      ++ (if canOpen jitter then jitter :: (if canOpen face then [face] else []) else [])
  ∧ length (errors r.2) = length (errors out) + (if canOpen jitter && canOpen face then 0 else 1).
Proof.
  unfold saveDefaultConfigs, saveDefaultJitter, saveDefaultFaceSpec. simpl.
  destruct (canOpen (sOutput +:+ "/jitter.json")); simpl.
  - destruct (canOpen (sOutput +:+ "/face.json")); simpl.
    + split_and!; [done | by rewrite <- app_assoc | lia].
    + split_and!; [done | done | rewrite length_app; simpl; lia].
  - split_and!; [done | by rewrite app_nil_r | rewrite length_app; simpl; lia].
Qed.

(** X5. [saveDefaultConfigs] returns 0 when both files open and 1
    otherwise, never the -1 of the function that failed; it writes
    [jitter.json] if that opens, and [face.json] if both open: when the
    first file does not open the second is not tried. *)
Theorem saveDefaultConfigs_code (canOpen : string → bool) (sOutput : string) (out : Output) :
  let jitter := sOutput +:+ "/jitter.json" in
  let face := sOutput +:+ "/face.json" in
  let r := saveDefaultConfigs canOpen sOutput out in
  r.1 = (if canOpen jitter && canOpen face then 0 else 1)%Z
  ∧ written r.2
    = written out
      ++ (if canOpen jitter then jitter :: (if canOpen face then [face] else []) else [])
  ∧ length (errors r.2) = length (errors out) + (if canOpen jitter && canOpen face then 0 else 1).
Proof. apply saveDefaultConfigs_cases. Qed.

(** X6. [main] compares the result of [saveDefaultConfigs] with
    [< 0]: it returns at this step in no case, also when no file could be
    written. *)
Theorem boilerplateStep_goes_on (doBoilerplate : bool) (canOpen : string → bool)
    (sOutput : string) (out : Output) :
  (boilerplateStep doBoilerplate canOpen sOutput out).1 = None.
Proof.
  unfold boilerplateStep. destruct doBoilerplate; [|done].
  pose proof (saveDefaultConfigs_cases canOpen sOutput out) as [Hcode _].
  destruct (saveDefaultConfigs canOpen sOutput out) as [r out']. simpl in *.
  subst r. by destruct (_ && _).
Qed.

(** ** The samples per image *)

Section RepeatFacts.
Local Open Scope Z_scope.

(** The sum of a vector of [int]. *)
Abbreviation total := (foldr Z.add 0).

(** How often [i] is drawn. *)
Abbreviation drawn i draws := (Z.of_nat (length (List.filter (Z.eqb i) draws))).

Lemma total_alter (rep : list Z) (k : nat) :
  (k < length rep)%nat → total (alter (λ r, r + 1) k rep) = total rep + 1.
Proof.
  revert k. induction rep as [|r rep IH]; intros k Hk; simpl in Hk; [lia|].
  destruct k as [|k]; [simpl; lia|].
  change (r + total (alter (λ r, r + 1) k rep) = r + total rep + 1).
  rewrite IH by lia. lia.
Qed.

Lemma countDraws_spec (draws : list Z) : ∀ (rep : list Z),
  Forall (λ i, 0 ≤ i < Z.of_nat (length rep)) draws →
  ∃ rep', countDraws draws rep = Done rep'
    ∧ length rep' = length rep
    ∧ total rep' = total rep + Z.of_nat (length draws)
    ∧ ∀ (k : nat) r, rep !! k = Some r →
        rep' !! k = Some (r + drawn (Z.of_nat k) draws).
Proof.
  induction draws as [|i draws IH]; intros rep Hdraws.
  - exists rep. split_and!; [done | done | simpl; lia |].
    intros k r Hk. simpl. by rewrite Z.add_0_r.
  - apply Forall_cons in Hdraws as [Hi Hdraws]. cbn [countDraws].
    rewrite decide_True by done.
    destruct (IH (alter (λ r, r + 1) (Z.to_nat i) rep)) as (rep' & Hrun & Hlen & Hsum & Hat).
    { by rewrite length_alter. }
    exists rep'. rewrite Hrun. rewrite length_alter in Hlen.
    split_and!; [done | done | |].
    + rewrite Hsum, total_alter by lia. cbn [length]. lia.
    + intros k r Hk. cbn [List.filter].
      destruct (decide (k = Z.to_nat i)) as [->|Hne].
      * rewrite (Hat (Z.to_nat i) (r + 1)).
        2:{ by rewrite list_lookup_alter_eq, Hk. }
        rewrite Z2Nat.id by lia. rewrite Z.eqb_refl. cbn [length]. f_equal. lia.
      * rewrite (Hat k r).
        2:{ by rewrite list_lookup_alter_ne. }
        destruct (Z.eqb_spec (Z.of_nat k) i); [lia | done].
Qed.

Lemma repeatCounts_spec (lines : nat) (sampleCount : Z) (draws : list Z) :
  0 < sampleCount →
  Z.of_nat (length draws) = sampleCount →
  Forall (λ i, 0 ≤ i < Z.of_nat lines) draws →
  ∃ rep, repeatCounts lines sampleCount draws = Done rep
    ∧ length rep = lines
    ∧ total rep = sampleCount
    ∧ ∀ k : nat, (k < lines)%nat → rep !! k = Some (drawn (Z.of_nat k) draws).
Proof.
  intros Hpos Hlen Hdraws. unfold repeatCounts.
  destruct (Z.ltb_spec 0 sampleCount) as [_|]; [|lia].
  destruct (countDraws_spec draws (replicate lines 0)) as (rep & Hrun & Hl & Hsum & Hat).
  { by rewrite length_replicate. }
  exists rep. rewrite length_replicate in Hl. split_and!; [done | done | |].
  - rewrite Hsum, Hlen. clear. induction lines; simpl; lia.
  - intros k Hk. rewrite (Hat k 0); [by rewrite Z.add_0_l|].
    by apply lookup_replicate_2.
Qed.

(** X7. With [sampleCount] above zero and as many draws, each the index
    of an image, the vector [repeat] has one entry per image, the entry
    of an image says how often it was drawn, and the entries sum to
    [sampleCount]. *)
Theorem repeatCounts_drawn (lines : nat) (sampleCount : Z) (draws : list Z) :
  0 < sampleCount →
  Z.of_nat (length draws) = sampleCount →
  Forall (λ i, 0 ≤ i < Z.of_nat lines) draws →
  ∃ rep, repeatCounts lines sampleCount draws = Done rep
    ∧ length rep = lines
    ∧ total rep = sampleCount
    ∧ ∀ k : nat, (k < lines)%nat → rep !! k = Some (drawn (Z.of_nat k) draws).
Proof. apply repeatCounts_spec. Qed.

Lemma repeatCounts_drawn_witness :
  ∃ rep, repeatCounts 4 5 [0; 2; 2; 3; 0] = Done rep
    ∧ length rep = 4%nat
    ∧ total rep = 5
    ∧ ∀ k : nat, (k < 4)%nat → rep !! k = Some (drawn (Z.of_nat k) [0; 2; 2; 3; 0]).
Proof.
  apply (repeatCounts_drawn 4 5 [0; 2; 2; 3; 0]); [lia | reflexivity |].
  repeat constructor; lia.
Defined.

Lemma facesOf_length {Img : Type} (jitter : nat → bool → Img) (rep : Z) (photo : bool) :
  0 ≤ rep → length (facesOf jitter rep true photo) = Z.to_nat rep.
Proof.
  intros Hrep. unfold facesOf. destruct (Z.ltb_spec 0 rep); simpl.
  - rewrite length_fmap, length_seq. lia.
  - lia.
Qed.

(** X8. When every image can be read, the faces that the harness makes
    of all images together are [sampleCount] many, for as many draws,
    each the index of an image; without a sample count they are one per
    image; and the first face of an image is the one made without
    jitter. *)
Theorem facesOf_total {Img : Type} (jitter : nat → bool → Img) (photo : bool)
    (lines : nat) (sampleCount : Z) (draws : list Z) :
  (0 < sampleCount → Z.of_nat (length draws) = sampleCount
   ∧ Forall (λ i, 0 ≤ i < Z.of_nat lines) draws) →
  ∃ rep, repeatCounts lines sampleCount draws = Done rep
    ∧ Z.of_nat (length (concat ((λ r, facesOf jitter r true photo) <$> rep)))
      = (if 0 <? sampleCount then sampleCount else Z.of_nat lines)
    ∧ Forall (λ r, 0 < r → head (facesOf jitter r true photo) = Some (jitter O false)) rep.
Proof.
  intros Hdraws.
  assert (∀ rep : list Z, Forall (λ r, 0 ≤ r) rep →
    Z.of_nat (length (concat ((λ r, facesOf jitter r true photo) <$> rep))) = total rep) as Hsum.
  { induction 1 as [|r rep Hr _ IH]; csimpl; [done|].
    rewrite length_app, Nat2Z.inj_add, IH, facesOf_length by done. lia. }
  assert (∀ rep : list Z,
    Forall (λ r, 0 < r → head (facesOf jitter r true photo) = Some (jitter O false)) rep) as Hhead.
  { intros rep. apply Forall_forall. intros r _ Hr. unfold facesOf.
    by destruct (Z.ltb_spec 0 r); [|lia]. }
  destruct (Z.ltb_spec 0 sampleCount) as [Hpos|Hnone].
  - destruct (Hdraws Hpos) as [Hlen Hin].
    destruct (repeatCounts_spec lines sampleCount draws Hpos Hlen Hin)
      as (rep & Hrun & Hl & Htotal & Hat).
    exists rep. split_and!; [done | | done].
    rewrite Hsum; [done|].
    apply Forall_lookup. intros k r Hk.
    rewrite (Hat k) in Hk by (rewrite <- Hl; by eapply lookup_lt_Some).
    injection Hk as <-. lia.
  - exists (replicate lines 1). unfold repeatCounts.
    destruct (Z.ltb_spec 0 sampleCount); [lia|]. split_and!; [done | | done].
    rewrite Hsum by (apply Forall_replicate; lia).
    clear. induction lines; simpl; lia.
Qed.

Lemma facesOf_total_witness :
  ∃ rep, repeatCounts 4 5 [0; 2; 2; 3; 0] = Done rep
    ∧ Z.of_nat (length (concat ((λ r, facesOf (λ j b, (j, b)) r true false) <$> rep))) = 5.
Proof.
  destruct (facesOf_total (λ j b, (j, b)) false 4 5 [0; 2; 2; 3; 0])
    as (rep & Hrun & Hsum & _).
  - intros _. split; [reflexivity | repeat constructor; lia].
  - exists rep. split; [exact Hrun | exact Hsum].
Defined.
End RepeatFacts.

(** ** File names *)

Section FileNameFacts.

Lemma string_app_assoc (a b c : string) : (a +:+ b) +:+ c = a +:+ (b +:+ c).
Proof.
  induction a as [|x a IH]; [done|].
  change (String x ((a +:+ b) +:+ c) = String x (a +:+ (b +:+ c))). by rewrite IH.
Qed.

Lemma string_app_length (a b : string) :
  String.length (a +:+ b) = String.length a + String.length b.
Proof.
  induction a as [|x a IH]; [done|].
  change (S (String.length (a +:+ b)) = S (String.length a) + String.length b).
  by rewrite IH.
Qed.

Lemma string_app_inj_r (a b c : string) : a +:+ c = b +:+ c → a = b.
Proof.
  revert b. induction a as [|x a IH]; intros [|y b] Heq.
  - done.
  - apply (f_equal String.length) in Heq.
    change ("" +:+ c) with c in Heq. rewrite string_app_length in Heq. simpl in Heq. lia.
  - apply (f_equal String.length) in Heq.
    change ("" +:+ c) with c in Heq. rewrite string_app_length in Heq. simpl in Heq. lia.
  - change (String x (a +:+ c) = String y (b +:+ c)) in Heq.
    injection Heq as -> Heq. by rewrite (IH b).
Qed.

Lemma pretty_N_char_digit (d : N) :
  (d < 10)%N →
  Digits.digitValue (pretty_N_char d) = d ∧ Digits.isDigit (pretty_N_char d) = true.
Proof.
  intros Hd.
  assert (d = 0 ∨ d = 1 ∨ d = 2 ∨ d = 3 ∨ d = 4 ∨ d = 5 ∨ d = 6 ∨ d = 7 ∨ d = 8 ∨ d = 9)%N
    as Hcases by lia.
  by repeat (destruct Hcases as [->|Hcases]; [done|]); subst d.
Qed.

Lemma pretty_N_go_value (x : N) : ∀ s,
  Digits.allDigits s = true →
  Digits.numValue (pretty_N_go x s)
  = (x * 10 ^ N.of_nat (String.length s) + Digits.numValue s)%N
  ∧ Digits.allDigits (pretty_N_go x s) = true.
Proof.
  induction (N.lt_wf_0 x) as [x _ IH]. intros s Hs.
  destruct (decide (x = 0%N)) as [->|Hx].
  - rewrite pretty_N_go_0. split; [lia | done].
  - rewrite pretty_N_go_step by lia.
    destruct (pretty_N_char_digit (x `mod` 10)) as [Hval Hdig]; [by apply N.mod_lt|].
    destruct (IH (x `div` 10)%N) with (s := String (pretty_N_char (x `mod` 10)) s)
      as [Hnum Hall].
    + apply N.div_lt; lia.
    + simpl. by rewrite Hdig, Hs.
    + split; [|done]. rewrite Hnum. cbn [Digits.numValue String.length].
      rewrite Hval, Nat2N.inj_succ, N.pow_succ_r'.
      rewrite (N.div_mod x 10) at 3 by done. lia.
Qed.

(** The decimal output of an [int] that is not negative: digits that
    stand for it. *)
Lemma pretty_Z_value (z : Z) :
  (0 ≤ z)%Z →
  Digits.numValue (pretty z) = Z.to_N z ∧ Digits.allDigits (pretty z) = true.
Proof.
  intros Hz. destruct z as [|p|p]; [done | | lia].
  change (pretty (Z.pos p)) with (pretty_N_go (N.pos p) "").
  destruct (pretty_N_go_value (N.pos p) "") as [Hnum Hall]; [done|].
  split; [|done]. rewrite Hnum. simpl. lia.
Qed.

Lemma setw_value (width : nat) (s : string) :
  Digits.allDigits s = true →
  Digits.numValue (Path.setw "0" width s) = Digits.numValue s
  ∧ Digits.allDigits (Path.setw "0" width s) = true.
Proof.
  intros Hs. unfold Path.setw. induction (width - String.length s) as [|n [IHv IHd]]; simpl; [done|].
  by rewrite IHv, IHd.
Qed.

(** Digits, an underscore and more: the digits and the rest are
    determined. *)
Lemma digits_split (a a' r r' : string) :
  Digits.allDigits a = true → Digits.allDigits a' = true →
  a +:+ String "_" r = a' +:+ String "_" r' → a = a' ∧ r = r'.
Proof.
  revert a'. induction a as [|c a IH]; intros [|c' a'] Ha Ha' Heq; simpl in *.
  - by injection Heq as ->.
  - injection Heq as <- _. by apply andb_true_iff in Ha' as [? _].
  - injection Heq as -> _. by apply andb_true_iff in Ha as [? _].
  - injection Heq as -> Heq.
    apply andb_true_iff in Ha as [_ Ha]. apply andb_true_iff in Ha' as [_ Ha'].
    destruct (IH a' Ha Ha' Heq) as [-> ->]. done.
Qed.

Lemma setw_pretty_inj (width : nat) (z z' : Z) :
  (0 ≤ z)%Z → (0 ≤ z')%Z →
  Path.setw "0" width (pretty z) = Path.setw "0" width (pretty z') → z = z'.
Proof.
  intros Hz Hz' Heq.
  destruct (pretty_Z_value z Hz) as [Hv Hd], (pretty_Z_value z' Hz') as [Hv' Hd'].
  destruct (setw_value width _ Hd) as [Hw _], (setw_value width _ Hd') as [Hw' _].
  rewrite Heq, Hw', Hv' in Hw. lia.
Qed.

Lemma saveName_determines (dir base base' : string) (index index' i i' : Z) :
  (0 ≤ index)%Z → (0 ≤ index')%Z → (0 ≤ i)%Z → (0 ≤ i')%Z →
  Path.saveName dir base index i = Path.saveName dir base' index' i' →
  index = index' ∧ i = i' ∧ base = base'.
Proof.
  intros Hindex Hindex' Hi Hi' Heq. unfold Path.saveName in Heq.
  apply (inj (String.append dir)) in Heq. injection Heq as Heq.
  rewrite !string_app_assoc in Heq.
  destruct (pretty_Z_value index Hindex) as [_ Hd1], (pretty_Z_value index' Hindex') as [_ Hd1'].
  destruct (pretty_Z_value i Hi) as [_ Hd2], (pretty_Z_value i' Hi') as [_ Hd2'].
  apply digits_split in Heq as [Hfirst Heq];
    [|by apply setw_value..].
  apply digits_split in Heq as [Hsecond Heq];
    [|by apply setw_value..].
  apply setw_pretty_inj in Hfirst, Hsecond; try done.
  split_and!; [done | done |]. by apply string_app_inj_r in Heq.
Qed.

(** X9. The name of the file that [save] writes tells the image and the
    face: for numbers that are not negative, two names in one directory
    are equal only for the same index, the same face and the same base
    name. *)
Theorem saveName_inj (dir base base' : string) (index index' i i' : Z) :
  (0 ≤ index)%Z → (0 ≤ index')%Z → (0 ≤ i)%Z → (0 ≤ i')%Z →
  Path.saveName dir base index i = Path.saveName dir base' index' i' →
  index = index' ∧ i = i' ∧ base = base'.
Proof. apply saveName_determines. Qed.

Lemma saveName_inj_witness : 12%Z = 12%Z ∧ 3%Z = 3%Z ∧ "a" = "a".
Proof. apply (saveName_inj "out" "a" "a" 12 12 3 3); first [lia | reflexivity]. Defined.

Lemma save_names {Img : Type} (basename : string → string) (faces : list Img)
    (dir filename : string) (index : Z) (k : nat) (name : string) :
  (Path.save basename faces dir filename index).*1 !! k = Some name →
  k < length faces
  ∧ name = Path.saveName dir (basename filename) index (Z.of_nat k).
Proof.
  unfold Path.save. rewrite list_lookup_fmap, list_lookup_imap.
  destruct (faces !! k) as [face|] eqn:E; [|done]. simpl. intros [= <-].
  split; [by eapply lookup_lt_Some | done].
Qed.

(** X10. [save] writes one file per face, in the order of the faces; no
    two of them have one name, and no file of an image has the name of a
    file of an image with another index. *)
Theorem save_distinct {Img : Type} (basename : string → string) (faces faces' : list Img)
    (dir filename filename' : string) (index index' : Z) :
  (0 ≤ index)%Z → (0 ≤ index')%Z →
  (Path.save basename faces dir filename index).*2 = faces
  ∧ NoDup (Path.save basename faces dir filename index).*1
  ∧ (index ≠ index' →
     ∀ name, name ∈ (Path.save basename faces dir filename index).*1 →
             name ∉ (Path.save basename faces' dir filename' index').*1).
Proof.
  intros Hindex Hindex'. split_and!.
  - unfold Path.save. apply list_eq. intros k.
    rewrite list_lookup_fmap, list_lookup_imap. by destruct (faces !! k).
  - apply NoDup_alt. intros k k' name Hk Hk'.
    apply save_names in Hk as [_ ->], Hk' as [_ Heq].
    apply saveName_determines in Heq as (_ & Hkk & _); lia.
  - intros Hne name Hin Hin'.
    apply list_elem_of_lookup in Hin as [k Hk], Hin' as [k' Hk'].
    apply save_names in Hk as [_ ->], Hk' as [_ Heq].
    apply saveName_determines in Heq as (Heq & _ & _); lia.
Qed.

Lemma save_distinct_witness :
  NoDup (Path.save (λ s, s) ["x"; "y"] "out" "img" 7).*1
  ∧ ∀ name, name ∈ (Path.save (λ s, s) ["x"; "y"] "out" "img" 7).*1 →
            name ∉ (Path.save (λ s, s) ["z"] "out" "img" 8).*1.
Proof.
  destruct (save_distinct (λ s, s) ["x"; "y"] ["z"] "out" "img" "img" 7 8)
    as (_ & Hnames & Hother); [lia | lia |].
  split; [exact Hnames | apply Hother; lia].
Defined.

Lemma back_app_slash (d : string) : Path.back (d +:+ "/") = Some "/"%char.
Proof.
  induction d as [|c d IH]; [done|].
  change (String c d +:+ "/") with (String c (d +:+ "/")). cbn [Path.back].
  rewrite IH. by destruct (d +:+ "/").
Qed.

(** X11. The base directory with and without its final slash gives the
    same file names; which extension is given makes no difference, as
    long as one is given: the names end in [.png]; and without a base
    directory the file names stay as they are, extension or not. *)
Theorem resolve_directory (d e e' : string) (lines : list string) :
  (d ≠ "" → Path.back d ≠ Some "/"%char →
     Path.resolve (d +:+ "/") e lines = Path.resolve d e lines)
  ∧ (e ≠ "" → e' ≠ "" → Path.resolve d e lines = Path.resolve d e' lines)
  ∧ (e ≠ "" → d ≠ "" →
     Forall (λ f, ∃ f', f = f' +:+ ".png") (Path.resolve d e lines))
  ∧ Path.resolve "" e lines = lines
  ∧ length (Path.resolve d e lines) = length lines.
Proof.
  split_and!.
  - intros Hd Hback. unfold Path.resolve.
    rewrite decide_True by apply back_app_slash. rewrite decide_False by done.
    destruct d as [|c d]; [done|]. done.
  - intros He He'. unfold Path.resolve. by destruct e, e'.
  - intros He Hd. unfold Path.resolve. destruct d as [|c d]; [done|].
    destruct e as [|x e]; [done|].
    apply Forall_fmap, Forall_forall. intros f _. simpl. eauto.
  - done.
  - unfold Path.resolve. destruct d; [done|]. by rewrite length_fmap.
Qed.

Lemma resolve_directory_witness :
  Path.resolve ("data" +:+ "/") "jpg" ["a"; "b"] = Path.resolve "data" "jpg" ["a"; "b"]
  ∧ Path.resolve "data" "jpg" ["a"; "b"] = Path.resolve "data" "png" ["a"; "b"]
  ∧ Forall (λ f, ∃ f', f = f' +:+ ".png") (Path.resolve "data" "jpg" ["a"; "b"]).
Proof.
  destruct (resolve_directory "data" "jpg" "png" ["a"; "b"]) as (Hslash & Hext & Hpng & _).
  split_and!; [by apply Hslash | by apply Hext | by apply Hpng].
Defined.
End FileNameFacts.

(** ** Bounds and order of the running mean *)

Section MeanBounds.
Local Open Scope Qc_scope.
Context (h w : nat).

Ltac to_Q' :=
  unfold Qclt, Qcle in *; cbn [this Qcplus Qcmult Qcopp Qcminus Q2Qc] in *;
  rewrite ?Qred_correct in *.

Lemma Forall_zip_with {A B C : Type} (P : A → Prop) (Q : B → Prop) (R : C → Prop)
    (f : A → B → C) (l : list A) (k : list B) :
  (∀ x y, P x → Q y → R (f x y)) → Forall P l → Forall Q k → Forall R (zip_with f l k).
Proof.
  intros Hf Hl. revert k. induction Hl as [|x l Hx Hl IH]; intros [|y k] Hk; simpl; try done.
  apply Forall_cons in Hk as [Hy Hk]. constructor; auto.
Qed.

Lemma within_padd (a b c d : Qc) (m1 m2 : Mat3f) :
  within a b m1 → within c d m2 → within (a + c) (b + d) (padd m1 m2).
Proof.
  unfold within. cbn [MatOp.zipData Cv.data]. apply Forall_zip_with.
  intros r1 r2. apply Forall_zip_with. intros x y [? ?] [? ?].
  split; by apply Qcplus_le_compat.
Qed.

Lemma within_scale (s a b : Qc) (m : Mat3f) :
  0 ≤ s → within a b m → within (s * a) (s * b) (MatOp.scale s m).
Proof.
  intros Hs. unfold within. cbn [MatOp.scale Cv.data]. intros Hm.
  apply Forall_fmap. eapply Forall_impl; [exact Hm|]. intros r Hr.
  apply Forall_fmap. eapply Forall_impl; [exact Hr|]. intros x [? ?]. simpl.
  rewrite !(Qcmult_comm s). split; by apply Qcmult_le_compat_r.
Qed.

Lemma within_zeros : within 0 0 (zeros h w).
Proof.
  unfold within, zeros. cbn [Cv.data].
  apply Forall_replicate, Forall_replicate. split; apply Qcle_refl.
Qed.

Lemma within_matSum (lo hi : Qc) (xs : list Mat3f) :
  Forall (within lo hi) xs →
  within (Qc_of_Z (Z.of_nat (length xs)) * lo) (Qc_of_Z (Z.of_nat (length xs)) * hi)
         (matSum h w xs).
Proof.
  induction 1 as [|x xs Hx _ IH].
  - simpl. change (Qc_of_Z 0) with 0. rewrite !Qcmult_0_l. apply within_zeros.
  - cbn [matSum foldr length]. fold (matSum h w xs).
    rewrite Nat2Z.inj_succ, <- Z.add_1_l, Qc_of_Z_plus, Qc_of_Z_1.
    rewrite !Qcmult_plus_distr_l, !Qcmult_1_l. by apply within_padd.
Qed.

(** The mean of samples between two bounds lies between them. *)
Lemma within_arithmeticMean (lo hi : Qc) (xs : list Mat3f) :
  xs ≠ [] → Forall (Cv.hasSize h w) xs → Forall (within lo hi) xs →
  within lo hi (arithmeticMean xs).
Proof.
  intros Hne Hsized Hxs. destruct xs as [|x xs]; [done|]. unfold arithmeticMean.
  destruct (Forall_inv Hsized) as (-> & -> & _).
  set (n := Qc_of_Z (Z.of_nat (length (x :: xs)))).
  assert (n ≠ 0) as Hn by (apply Qc_of_Z_nonzero; simpl; lia).
  assert (0 < n) as Hpos.
  { subst n. unfold Qc_of_Z. to_Q'. unfold Qlt. simpl. lia. }
  assert (0 ≤ dec 1 1 / n) as Hinv.
  { change (dec 1 1) with 1. unfold Qcdiv. rewrite Qcmult_1_l.
    apply Qclt_le_weak. apply Qcnot_le_lt. intros Hle.
    assert (n * / n ≤ n * 0) as Hbad.
    { rewrite !(Qcmult_comm n). by apply Qcmult_le_compat_r, Qclt_le_weak. }
    rewrite Qcmult_inv_r, Qcmult_0_r in Hbad by done. by apply Qcle_not_lt in Hbad. }
  replace lo with (dec 1 1 / n * (n * lo)) by (change (dec 1 1) with 1; by field).
  replace hi with (dec 1 1 / n * (n * hi)) by (change (dec 1 1) with 1; by field).
  by apply within_scale, within_matSum.
Qed.

Lemma zip_with_comm {A B : Type} (f : A → A → B) (l k : list A) :
  (∀ x y, f x y = f y x) → zip_with f l k = zip_with f k l.
Proof.
  intros Hf. revert k. induction l as [|x l IH]; intros [|y k]; simpl; try done.
  by rewrite Hf, IH.
Qed.

Lemma padd_comm (m1 m2 : Mat3f) :
  Cv.hasSize h w m1 → Cv.hasSize h w m2 → padd m1 m2 = padd m2 m1.
Proof.
  intros (Hr1 & Hc1 & _) (Hr2 & Hc2 & _). unfold MatOp.zipData.
  rewrite Hr1, Hr2, Hc1, Hc2. f_equal.
  apply zip_with_comm. intros r1 r2. apply zip_with_comm. intros. ring.
Qed.

Lemma matSum_perm (xs ys : list Mat3f) :
  Permutation xs ys → Forall (Cv.hasSize h w) xs → matSum h w xs = matSum h w ys.
Proof.
  induction 1 as [|x xs ys Hperm IH|x y xs|xs ys zs Hxy IHxy Hyz IHyz]; intros Hs.
  - done.
  - simpl. fold (matSum h w xs) (matSum h w ys).
    apply Forall_cons in Hs as [_ Hs]. by rewrite IH.
  - simpl. fold (matSum h w xs).
    apply Forall_cons in Hs as [Hy Hs]. apply Forall_cons in Hs as [Hx Hs].
    pose proof (matSum_sized h w xs Hs) as HS.
    rewrite <- !(mat_assoc h w) by done. by rewrite (padd_comm y x).
  - rewrite IHxy by done. apply IHyz. by rewrite <- Hxy.
Qed.

(** The mean does not depend on the order of the samples. *)
Lemma arithmeticMean_perm (xs ys : list Mat3f) :
  Permutation xs ys → Forall (Cv.hasSize h w) xs → arithmeticMean xs = arithmeticMean ys.
Proof.
  intros Hperm Hs. pose proof Hs as Hs'. rewrite Hperm in Hs'.
  destruct xs as [|x xs], ys as [|y ys].
  - done.
  - by apply Permutation_nil_l in Hperm.
  - by apply Permutation_nil_r in Hperm.
  - unfold arithmeticMean.
    destruct (Forall_inv Hs) as (-> & -> & _), (Forall_inv Hs') as (-> & -> & _).
    by rewrite (Permutation_length Hperm), (matSum_perm _ _ Hperm Hs).
Qed.

(** The samples of a thread: at least one, all of one size. *)
Abbreviation sampled := (λ t : list Mat3f, t ≠ [] ∧ Forall (Cv.hasSize h w) t).

(** The jitterer that the samples [t] leave. *)
Abbreviation left_by t j := (updateMeans t newFaceJittererMean = Done j).

Lemma computeMeanFace_runs (ts : list (list Mat3f)) (js : list FaceJittererMean) :
  Forall sampled ts → Forall2 (λ t j, left_by t j) ts js →
  computeMeanFace js = Done (arithmeticMean (concat ts)).
Proof.
  intros Hts Hrun. rewrite (runs_seen h w ts js Hts Hrun).
  by apply (computeMeanFace_mean h w).
Qed.

Lemma concat_Forall {A : Type} (P : A → Prop) (ts : list (list A)) :
  Forall (Forall P) ts → Forall P (concat ts).
Proof. induction 1; csimpl; [done | by apply Forall_app]. Qed.

Lemma convertTo_sized (alpha : Qc) (f : Cv.Mat Z) :
  Cv.hasSize h w f → Cv.hasSize h w (convertTo alpha f).
Proof.
  intros (Hr & Hc & Hl & Hw). unfold convertTo, Cv.hasSize, Cv.wf. cbn.
  split_and!; [done | done | by rewrite length_fmap |].
  apply Forall_fmap. eapply Forall_impl; [exact Hw|]. intros r Hrow. simpl.
  by rewrite length_fmap.
Qed.

Lemma byte_share (v : Z) :
  (0 ≤ v ≤ 255)%Z → 0 ≤ Qc_of_Z v * (dec 1 1 / dec 255 1) ∧ Qc_of_Z v * (dec 1 1 / dec 255 1) ≤ 1.
Proof.
  intros [Hlo Hhi].
  assert (dec 1 1 / dec 255 1 = dec 1 255) as -> by by apply Qc_is_canon.
  unfold Qc_of_Z, dec. to_Q'. rewrite ?Qred_correct.
  rewrite Zle_Qle in Hlo, Hhi. change (inject_Z 0) with 0%Q in Hlo.
  change (inject_Z 255) with (255 # 1)%Q in Hhi. split; lra.
Qed.

Lemma convertTo_within (f : Cv.Mat Z) :
  Forall (Forall (λ v, 0 ≤ v ≤ 255)%Z) (Cv.data f) →
  within 0 1 (convertTo (dec 1 1 / dec 255 1) f).
Proof.
  intros Hf. unfold within, convertTo. cbn [Cv.data].
  apply Forall_fmap. eapply Forall_impl; [exact Hf|]. intros r Hr.
  apply Forall_fmap. eapply Forall_impl; [exact Hr|]. intros v Hv. by apply byte_share.
Qed.

Lemma updateMeanImages_updateMeans (images : list (list (Cv.Mat Z))) :
  ∀ j, Forall (λ faces, faces ≠ []) images →
  updateMeanImages images j
  = updateMeans (convertTo (dec 1 1 / dec 255 1) <$> concat images) j.
Proof.
  induction images as [|faces images IH]; intros j Hne; [done|].
  apply Forall_cons in Hne as [Hfaces Hne]. csimpl.
  rewrite fmap_app, updateMeans_app. unfold updateMeanFaces.
  destruct faces as [|f faces]; [done|].
  destruct (updateMeans _ j); [by apply IH | done].
Qed.
End MeanBounds.

(** X12. Under exact arithmetic (the rounding of [float] is not part of
    the embedding): samples of one size whose entries lie between two
    bounds leave a mean between these bounds in a jitterer that has seen
    at least one of them, and, for the jitterers of threads that have
    each seen at least one sample, in [computeMeanFace]. *)
Theorem mean_within_bounds (h w : nat) (lo hi : Qc) :
  (∀ xs, xs ≠ [] → Forall (Cv.hasSize h w) xs → Forall (within lo hi) xs →
     ∃ j, updateMeans xs newFaceJittererMean = Done j ∧ within lo hi (mu j))
  ∧ (∀ ts js,
       Forall (λ t, t ≠ [] ∧ Forall (Cv.hasSize h w) t) ts →
       Forall (Forall (within lo hi)) ts →
       Forall2 (λ t j, updateMeans t newFaceJittererMean = Done j) ts js →
       ∃ m, computeMeanFace js = Done m ∧ within lo hi m).
Proof.
  split.
  - intros xs Hne Hs Hxs. eexists. split; [by apply (updateMeans_mean h w)|].
    by apply (within_arithmeticMean h w).
  - intros ts js Hts Hbounds Hrun. eexists.
    split; [by apply (computeMeanFace_runs h w ts)|].
    destruct (decide (concat ts = [])) as [->|Hne]; [by constructor|].
    apply (within_arithmeticMean h w); [done | | by apply concat_Forall].
    apply concat_Forall. eapply Forall_impl; [exact Hts|]. by intros t [_ Ht].
Qed.

Lemma mean_within_bounds_witness :
  (∃ j, updateMeans [Sample.face1; Sample.face2] newFaceJittererMean = Done j
        ∧ within (dec 0 1) (dec 1 1) (mu j))
  ∧ (∃ m, computeMeanFace [mkFaceJittererMean Sample.face1 1; mkFaceJittererMean Sample.face2 1]
          = Done m ∧ within (dec 0 1) (dec 1 1) m).
Proof.
  destruct (mean_within_bounds 1 3 (dec 0 1) (dec 1 1)) as [Hrun Hthreads]. split.
  - apply (Hrun [Sample.face1; Sample.face2]); [done | repeat constructor |].
    repeat constructor; done.
  - apply (Hthreads [[Sample.face1]; [Sample.face2]]).
    + repeat constructor; done.
    + repeat constructor; done.
    + repeat constructor.
Defined.

(** X13. The faces of 8 bits of the images of a thread, all of one size
    and at least one per image: after the calls [updateMean(faces)] the
    jitterer has counted the faces, and, under exact arithmetic (the
    rounding of [float] is not part of the embedding), its mean is the
    arithmetic mean of the faces divided by 255, and every entry of it
    lies between 0 and 1. *)
Theorem updateMeanImages_mean (h w : nat) (images : list (list (Cv.Mat Z))) :
  images ≠ [] →
  Forall (λ faces, faces ≠ []) images →
  Forall (Forall (Cv.hasSize h w)) images →
  Forall (Forall (λ f, Forall (Forall (λ v, 0 ≤ v ≤ 255)%Z) (Cv.data f))) images →
  let samples := convertTo (dec 1 1 / dec 255 1)%Qc <$> concat images in
  updateMeanImages images newFaceJittererMean
  = Done (mkFaceJittererMean (arithmeticMean samples) (Z.of_nat (length (concat images))))
  ∧ within (dec 0 1) (dec 1 1) (arithmeticMean samples).
Proof.
  intros Himages Hne Hsized Hbytes samples.
  assert (samples ≠ []) as Hsamples.
  { subst samples. destruct images as [|[|f faces] images]; [done | | done].
    by apply Forall_inv in Hne. }
  assert (Forall (Cv.hasSize h w) samples) as Hs.
  { subst samples. apply Forall_fmap.
    eapply Forall_impl; [by apply (concat_Forall (Cv.hasSize h w))|].
    intros f Hf. simpl. by apply convertTo_sized. }
  split.
  - rewrite (updateMeanImages_updateMeans images _ Hne).
    fold samples. rewrite (updateMeans_mean h w samples Hsamples Hs).
    subst samples. by rewrite length_fmap.
  - apply (within_arithmeticMean h w); [done | done |].
    subst samples. apply Forall_fmap.
    eapply Forall_impl; [by apply concat_Forall, Hbytes|].
    intros f Hf. simpl. by apply convertTo_within.
Qed.

Lemma updateMeanImages_mean_witness :
  updateMeanImages [[Sample.plane12; Sample.plane34]; [Sample.plane56]] newFaceJittererMean
  = Done (mkFaceJittererMean
            (arithmeticMean (convertTo (dec 1 1 / dec 255 1)%Qc
                               <$> [Sample.plane12; Sample.plane34; Sample.plane56]))
            3).
Proof.
  apply (updateMeanImages_mean 1 2 [[Sample.plane12; Sample.plane34]; [Sample.plane56]]).
  - done.
  - repeat constructor; done.
  - repeat constructor.
  - repeat constructor; lia.
Defined.

(** X14. Under exact arithmetic (the rounding of [float], which depends
    on the order of the sums, is not part of the embedding), for samples
    of one size: the same samples, at least one, in another order leave
    the same jitterer; and two sets of threads, each thread of which has
    seen at least one sample, that have seen the same samples altogether
    give the same mean face. *)
Theorem mean_order_independent (h w : nat) :
  (∀ xs ys, xs ≠ [] → Forall (Cv.hasSize h w) xs → Permutation xs ys →
     updateMeans xs newFaceJittererMean = updateMeans ys newFaceJittererMean)
  ∧ (∀ ts ts' js js',
       Forall (λ t, t ≠ [] ∧ Forall (Cv.hasSize h w) t) ts →
       Forall (λ t, t ≠ [] ∧ Forall (Cv.hasSize h w) t) ts' →
       Forall2 (λ t j, updateMeans t newFaceJittererMean = Done j) ts js →
       Forall2 (λ t j, updateMeans t newFaceJittererMean = Done j) ts' js' →
       Permutation (concat ts) (concat ts') →
       computeMeanFace js = computeMeanFace js').
Proof.
  split.
  - intros xs ys Hne Hs Hperm.
    assert (ys ≠ []) as Hne'.
    { intros ->. by apply Permutation_nil_r in Hperm. }
    assert (Forall (Cv.hasSize h w) ys) as Hs' by by rewrite <- Hperm.
    rewrite (updateMeans_mean h w xs Hne Hs), (updateMeans_mean h w ys Hne' Hs').
    by rewrite (arithmeticMean_perm h w xs ys Hperm Hs), (Permutation_length Hperm).
  - intros ts ts' js js' Hts Hts' Hrun Hrun' Hperm.
    rewrite (computeMeanFace_runs h w ts js Hts Hrun).
    rewrite (computeMeanFace_runs h w ts' js' Hts' Hrun').
    f_equal. apply (arithmeticMean_perm h w); [done|].
    apply concat_Forall. eapply Forall_impl; [exact Hts|]. by intros t [_ Ht].
Qed.

Lemma mean_order_independent_witness :
  updateMeans [Sample.face1; Sample.face2] newFaceJittererMean
  = updateMeans [Sample.face2; Sample.face1] newFaceJittererMean
  ∧ computeMeanFace [mkFaceJittererMean Sample.face1 1; mkFaceJittererMean Sample.face2 1]
    = computeMeanFace [mkFaceJittererMean Sample.face2 1; mkFaceJittererMean Sample.face1 1].
Proof.
  destruct (mean_order_independent 1 3) as [Horder Hthreads]. split.
  - apply Horder; [done | repeat constructor | apply perm_swap].
  - apply (Hthreads [[Sample.face1]; [Sample.face2]] [[Sample.face2]; [Sample.face1]]).
    + repeat constructor; done.
    + repeat constructor; done.
    + repeat constructor.
    + repeat constructor.
    + apply perm_swap.
Defined.

(** ** The chromaticity terms of rgb2luv *)

Section ChromaFacts.
Local Open Scope Qc_scope.

Ltac to_Q'' :=
  unfold Qclt, Qcle in *; cbn [this Qcplus Qcmult Qcopp Qcminus Q2Qc] in *;
  rewrite ?Qred_correct in *.

Lemma Qc_inv_nonneg (n : Qc) : 0 < n → 0 ≤ / n.
Proof.
  intros Hn. apply Qclt_le_weak, Qcnot_le_lt. intros Hle.
  assert (n * / n ≤ n * 0) as Hbad.
  { rewrite !(Qcmult_comm n). by apply Qcmult_le_compat_r, Qclt_le_weak. }
  rewrite Qcmult_inv_r, Qcmult_0_r in Hbad by (apply not_eq_sym, Qclt_not_eq, Hn).
  by apply Qcle_not_lt in Hbad.
Qed.

(** A part [x] of a positive sum [c], weighted by [m] in it, divided by
    the sum. *)
Lemma share_bounded (m x c : Qc) :
  0 < m → 0 ≤ x → 0 < c → m * x ≤ c →
  0 ≤ x * (dec 1 1 / c) ∧ m * (x * (dec 1 1 / c)) ≤ 1.
Proof.
  intros Hm Hx Hc Hle. pose proof (Qc_inv_nonneg c Hc) as Hinv.
  change (dec 1 1) with 1. unfold Qcdiv. rewrite Qcmult_1_l. split.
  - rewrite Qcmult_comm. destruct (Qcle_lt_or_eq _ _ Hinv) as [Hpos | <-].
    + by apply Qc_nonneg_weighted.
    + by rewrite Qcmult_0_l.
  - rewrite Qcmult_assoc.
    rewrite <- (Qcmult_inv_r c) by (apply not_eq_sym, Qclt_not_eq, Hc).
    by apply Qcmult_le_compat_r.
Qed.

(** [l * (t - k) - m] for a lightness [l] that is not negative and a
    term [t] between 0 and [hi]. *)
Lemma chroma_between (l t hi k m : Qc) :
  0 ≤ l → 0 ≤ t → t ≤ hi →
  l * (0 - k) - m ≤ l * (t - k) - m ∧ l * (t - k) - m ≤ l * (hi - k) - m.
Proof.
  intros Hl Ht Hhi.
  assert (0 ≤ l * t) as H0.
  { rewrite <- (Qcmult_0_l t). by apply Qcmult_le_compat_r. }
  assert (l * t ≤ l * hi) as H1.
  { rewrite !(Qcmult_comm l). by apply Qcmult_le_compat_r. }
  replace (l * (0 - k) - m) with (0 - l * k - m) by ring.
  replace (l * (t - k) - m) with (l * t - l * k - m) by ring.
  replace (l * (hi - k) - m) with (l * hi - l * k - m) by ring.
  revert H0 H1. generalize (l * t) (l * hi) (l * k). intros a b c H0 H1.
  to_Q''. split; lra.
Qed.

Lemma xyz_shares (rgb : Vec3f) :
  0 ≤ v0 rgb → 0 ≤ v1 rgb → 0 ≤ v2 rgb →
  dec 1 1 * v0 (Luv.xyz rgb) ≤ Luv.c rgb ∧ dec 15 1 * v1 (Luv.xyz rgb) ≤ Luv.c rgb.
Proof.
  intros H0 H1 H2. destruct (xyz_nonneg rgb H0 H1 H2) as (Hx & Hy & Hz).
  pose proof eps_pos as He.
  assert (0 ≤ dec 3 1 * v2 (Luv.xyz rgb)) as Hz3 by by apply Qc_nonneg_weighted.
  assert (0 ≤ dec 15 1 * v1 (Luv.xyz rgb)) as Hy15 by by apply Qc_nonneg_weighted.
  unfold Luv.c, Vec3f_dot, Luv.k. cbn [v0 v1 v2].
  rewrite !(Qcmult_comm (_ (Luv.xyz rgb))).
  change (dec 1 1) with 1. rewrite !Qcmult_1_l.
  revert Hx Hy15 Hz3 He.
  generalize (v0 (Luv.xyz rgb)) (dec 15 1 * v1 (Luv.xyz rgb))
             (dec 3 1 * v2 (Luv.xyz rgb)) Luv.eps.
  clear. intros x y z e Hx Hy Hz He. to_Q''. split; lra.
Qed.

Lemma chroma_terms (rgb : Vec3f) :
  0 ≤ v0 rgb → 0 ≤ v1 rgb → 0 ≤ v2 rgb →
  (0 ≤ dec 52 1 * v0 (Luv.xyz rgb) * Luv.z rgb
   ∧ dec 52 1 * v0 (Luv.xyz rgb) * Luv.z rgb ≤ dec 52 1)
  ∧ (0 ≤ dec 117 1 * v1 (Luv.xyz rgb) * Luv.z rgb
     ∧ dec 117 1 * v1 (Luv.xyz rgb) * Luv.z rgb ≤ dec 39 5).
Proof.
  intros H0 H1 H2. destruct (xyz_nonneg rgb H0 H1 H2) as (Hx & Hy & _).
  destruct (xyz_shares rgb H0 H1 H2) as [Hxc Hyc].
  assert (0 < Luv.c rgb) as Hc.
  { eapply Qclt_le_trans; [apply eps_pos | by apply c_lower_bound]. }
  destruct (share_bounded (dec 1 1) _ _ (dec_pos 1 1) Hx Hc Hxc) as [Hx0 Hx1].
  destruct (share_bounded (dec 15 1) _ _ (dec_pos 15 1) Hy Hc Hyc) as [Hy0 Hy1].
  unfold Luv.z. rewrite <- !Qcmult_assoc.
  revert Hx0 Hx1 Hy0 Hy1.
  generalize (v0 (Luv.xyz rgb) * (dec 1 1 / Luv.c rgb))
             (v1 (Luv.xyz rgb) * (dec 1 1 / Luv.c rgb)).
  intros x y Hx0 Hx1 Hy0 Hy1. unfold dec in *. to_Q''. split_and!; lra.
Qed.

Lemma linear_lightness_nonneg (y : Qc) : 0 ≤ y → 0 ≤ y * Luv.a * Luv.maxi.
Proof. intros Hy. unfold Luv.a, Luv.maxi, dec. to_Q''. lra. Qed.
End ChromaFacts.

(** X15. For a colour without a negative component the division by [c]
    cannot blow up, however dark the colour: the term [52 X z] lies
    between 0 and 52 and the term [117 Y z] between 0 and 7.8.  Hence,
    when the lightness [l] that [rgb2luv] returns is not negative, its u
    lies between [l (0 - 13 un) - minu] and [l (52 - 13 un) - minu] and
    its v between [l (0 - 13 vn) - minv] and [l (7.8 - 13 vn) - minv];
    the lightness is not negative on the linear branch (Y at most y0),
    whatever [pow] is. *)
Theorem rgb2luv_chroma_bounded (pow : Qc → Qc → Qc) (rgb : Vec3f) :
  (0 ≤ v0 rgb → 0 ≤ v1 rgb → 0 ≤ v2 rgb →
   let luv := rgb2luv pow rgb in
   let X := v0 (Luv.xyz rgb) in
   let Y := v1 (Luv.xyz rgb) in
   (0 ≤ dec 52 1 * X * Luv.z rgb ∧ dec 52 1 * X * Luv.z rgb ≤ dec 52 1)
   ∧ (0 ≤ dec 117 1 * Y * Luv.z rgb ∧ dec 117 1 * Y * Luv.z rgb ≤ dec 39 5)
   ∧ (Y ≤ Luv.y0 → v0 luv = Y * Luv.a * Luv.maxi ∧ 0 ≤ v0 luv)
   ∧ (0 ≤ v0 luv →
      (v0 luv * (0 - dec 13 1 * Luv.un) - Luv.minu ≤ v1 luv
       ∧ v1 luv ≤ v0 luv * (dec 52 1 - dec 13 1 * Luv.un) - Luv.minu)
      ∧ (v0 luv * (0 - dec 13 1 * Luv.vn) - Luv.minv ≤ v2 luv
         ∧ v2 luv ≤ v0 luv * (dec 39 5 - dec 13 1 * Luv.vn) - Luv.minv)))%Qc.
Proof.
  intros H0 H1 H2 luv X Y.
  destruct (chroma_terms rgb H0 H1 H2) as [[Hu0 Hu1] [Hv0 Hv1]].
  destruct (xyz_nonneg rgb H0 H1 H2) as (_ & Hy & _).
  split_and!; [done | done | done | done | |].
  - intros Hdark. subst luv. unfold rgb2luv. cbn [v0].
    fold Y. destruct (Luv.y0 ?= Y)%Qc eqn:Hcmp.
    + split; [done | by apply linear_lightness_nonneg].
    + exfalso. apply (Qcle_not_lt _ _ Hdark). exact Hcmp.
    + split; [done | by apply linear_lightness_nonneg].
  - intros Hl. subst luv. unfold rgb2luv in *. cbn [v0 v1 v2] in *.
    split; by apply chroma_between.
Qed.

Lemma rgb2luv_chroma_bounded_witness :
  let luv := rgb2luv (λ b _, b) Sample.orange in
  let dark := rgb2luv (λ b _, b) (mkVec3f (dec 1 1000) (dec 1 1000) (dec 0 1)) in
  ((v0 luv * (0 - dec 13 1 * Luv.un) - Luv.minu ≤ v1 luv
    ∧ v1 luv ≤ v0 luv * (dec 52 1 - dec 13 1 * Luv.un) - Luv.minu)
   ∧ 0 ≤ v0 dark)%Qc.
Proof.
  intros luv dark. split.
  - destruct (rgb2luv_chroma_bounded (λ b _, b) Sample.orange)
      as (_ & _ & _ & Hchroma); [done | done | done |].
    apply Hchroma. by vm_compute.
  - destruct (rgb2luv_chroma_bounded (λ b _, b) (mkVec3f (dec 1 1000) (dec 1 1000) (dec 0 1)))
      as (_ & _ & Hdark & _); [done | done | done |].
    apply Hdark. by vm_compute.
Defined.

(** ** The base matrix and the views of fuseChannels *)

Section FuseFacts.
Context {A : Type}.

Lemma fuseLoop_length (fuel : nat) (b : Cv.Mat A) :
  ∀ roi j stack stack',
    fuseLoop fuel b roi j stack = Done stack' → length stack' = length stack.
Proof.
  induction fuel as [|fuel IH]; intros roi j stack stack'; cbn [fuseLoop].
  - destruct (decide _); [done|]. by intros [= ->].
  - destruct (decide _); [|by intros [= ->]].
    destruct (Cv.submat b roi) as [view|]; [|done].
    destruct (decide (j < length stack)); [|done].
    intros Hrun. apply IH in Hrun. by rewrite length_insert in Hrun.
Qed.

Lemma stacked_sized (h w : nat) (stack : list (Cv.Mat A)) :
  Forall (Cv.hasSize h w) stack →
  Cv.hasSize (length stack * h) w
    (Cv.mkMat (length stack * h) w (concat (Cv.data <$> stack))).
Proof.
  intros Hs. unfold Cv.hasSize, Cv.wf. cbn [Cv.data Cv.rows Cv.cols].
  split_and!; [done | done | |].
  - induction Hs as [|p stack (Hr & _ & Hl & _) _ IH]; csimpl; [done|].
    rewrite length_app, IH. lia.
  - induction Hs as [|p stack (_ & Hc & _ & Hw) _ IH]; csimpl; [done|].
    apply Forall_app. split; [|done]. by rewrite <- Hc.
Qed.
End FuseFacts.

(** X16. For planes of one size [h] x [w], at least one in all (a stack
    of the range may have none), [fuseChannels] returns; the base of the
    output is the matrix of [n h] rows and [w] columns that holds the
    rows of the [n] planes one below the other, and the [j]-th plane of
    the output is the view of this base on the rows from [j h], [h] of
    them: the planes share the memory of the base. *)
Theorem fuseChannels_views {A : Type} (h w : nat) (range : list (MatP A)) :
  concat (get <$> range) ≠ [] →
  Forall (Cv.hasSize h w) (concat (get <$> range)) →
  ∃ out, fuseChannels range = Done out
    ∧ Cv.hasSize (length (get out) * h) w (base out)
    ∧ Cv.data (base out) = concat (Cv.data <$> concat (get <$> range))
    ∧ (∀ j p, get out !! j = Some p →
         Cv.submat (base out)
           (Cv.mkRect 0 (Z.of_nat (j * h)) (Z.of_nat w) (Z.of_nat h)) = Done p).
Proof.
  intros Hne Hs. eexists. split; [by apply (fuseChannels_sized h w)|].
  cbn [base get]. split_and!; [by apply stacked_sized | done |].
  intros j p Hj. by apply submat_plane.
Qed.

Lemma fuseChannels_views_witness :
  ∃ out, fuseChannels Sample.range3 = Done out
    ∧ Cv.submat (base out) (Cv.mkRect 0 2 2 1) = Done Sample.plane56.
Proof.
  destruct (fuseChannels_views 1 2 Sample.range3) as (out & Hout & _ & _ & Hview).
  - done.
  - repeat constructor.
  - exists out. split; [exact Hout|]. apply (Hview 2).
    rewrite (fuseChannels_sized 1 2 Sample.range3) in Hout;
      [| done | repeat constructor].
    by injection Hout as <-.
Defined.

(** X17. Whatever the sizes of the planes: when [fuseChannels] returns,
    the range held at least one plane, all planes had as many columns as
    the first, the base of the output is the planes one below the other
    (its rows are the sum of theirs), and the output holds as many
    planes as the inputs together. *)
Theorem fuseChannels_returns {A : Type} (range : list (MatP A)) (out : MatP A) :
  fuseChannels range = Done out →
  ∃ front rest,
    concat (get <$> range) = front :: rest
    ∧ Forall (λ m, Cv.cols m = Cv.cols front) rest
    ∧ base out = Cv.mkMat (sum_list (Cv.rows <$> front :: rest)) (Cv.cols front)
                   (concat (Cv.data <$> front :: rest))
    ∧ length (get out) = length (front :: rest).
Proof.
  unfold fuseChannels. destruct (concat (get <$> range)) as [|front rest]; [done|].
  unfold Cv.vconcat.
  destruct (decide (Forall (λ m, Cv.cols m = Cv.cols front) (front :: rest)))
    as [Hcols|]; [|done].
  destruct (fuseLoop _ _ _ _ _) as [stack'|] eqn:Hloop; [|done].
  intros [= <-]. exists front, rest. cbn [base get].
  split_and!; [done | by apply Forall_inv_tail in Hcols | done |].
  by apply fuseLoop_length in Hloop.
Qed.

Lemma fuseChannels_returns_witness :
  ∃ front rest, concat (get <$> Sample.range3) = front :: rest
    ∧ Forall (λ m, Cv.cols m = Cv.cols front) rest.
Proof.
  destruct (fuseChannels_returns Sample.range3
              (mkMatP (Cv.mkMat 3 2 [[1; 2]; [3; 4]; [5; 6]]%Z)
                 [Sample.plane12; Sample.plane34; Sample.plane56]))
    as (front & rest & Hstack & Hcols & _); [reflexivity|].
  by exists front, rest.
Defined.
